(** * BeYou: the focus-timer session engine of [App.tsx]

    A shallow embedding of the timer part of the [App] React component
    (handlers [handleStart], [handlePause], [handleResume], [handleStop],
    [handleComplete] and the interval callback they install) together with
    the enums and the [TimerSession] record of [types.ts].

    Modelling conventions.
    - JavaScript numbers are exact rationals ([Q]) in the handlers; the
      rounding of IEEE doubles is outside that model.  Values that the source only ever
      assigns from integers ([durationMinutes], [timeLeft],
      [totalDurationRef]) are integers ([Z]).  Division is only meaningful
      for a non-zero [totalDurationRef]; lemmas about the percentage say so.
      Where rounding decides a property, the arithmetic of the countdown
      is repeated on primitive floats ([percentage64], [remainingMs64],
      [seconds64]), which are the doubles of the source.
    - [useState] cells and [useRef] cells are fields of one record, [World],
      which also holds the browser's table of active intervals, the number
      of advisory promises still pending, and the trace of calls made to
      the collaborators (audio, storage, advisory text, console).
    - A handler is a function [World -> World]; [Date.now()] is an argument.
      Every handler runs to completion and the component is rendered again
      before the next event is delivered, so a click handler reads the
      current state.  An interval callback, however, keeps the closure of
      the render in which it was installed: the [handleComplete] it calls
      sees the [session] of that render.  The table of intervals stores
      that captured [session] with each timer id.
    - The buttons that are on screen decide which handler a user can call;
      that gating is the predicate [enabled].  Navigation between the
      views ([currentView]) is left out: the component stays mounted, its
      intervals keep firing, and leaving the timer view only takes buttons
      away, so [enabled] allows at least what the screen allows. *)

From Stdlib Require Import ZArith QArith Qround Qminmax Lqa Lia String List.
From Stdlib Require Import Ascii DecimalString DecimalZ.
From Stdlib Require Import Floats.PrimFloat Floats.SpecFloat Floats.FloatOps.
From stdpp Require Import base option gmap.
Import ListNotations.

Local Open Scope Z_scope.
Local Open Scope Q_scope.

(** ** types.ts *)

Inductive AppStage := SETUP | RUNNING | PAUSED | COMPLETED.

Inductive GoalCategory := FOCUS | CREATIVE | CHORE | LEARNING | REST.

Record TimerSession := mkSession {
  durationMinutes : Z;
  category : GoalCategory;
  intention : string;
  aiMotivation : option string;
  completedAt : option Q
}.

(** [{ ...prev, aiMotivation: m }] *)
Definition with_aiMotivation (m : option string) (s : TimerSession) : TimerSession :=
  {| durationMinutes := durationMinutes s; category := category s;
     intention := intention s; aiMotivation := m; completedAt := completedAt s |}.

Definition with_category (c : GoalCategory) (s : TimerSession) : TimerSession :=
  {| durationMinutes := durationMinutes s; category := c;
     intention := intention s; aiMotivation := aiMotivation s;
     completedAt := completedAt s |}.

Definition with_durationMinutes (d : Z) (s : TimerSession) : TimerSession :=
  {| durationMinutes := d; category := category s;
     intention := intention s; aiMotivation := aiMotivation s;
     completedAt := completedAt s |}.

Definition with_intention (i : string) (s : TimerSession) : TimerSession :=
  {| durationMinutes := durationMinutes s; category := category s;
     intention := i; aiMotivation := aiMotivation s;
     completedAt := completedAt s |}.

(** ** Collaborators

    [audioService], [storageService] and [geminiService] are imported by
    [App.tsx]; the engine only calls them.  Each call is recorded in the
    trace.  What a call can do to the engine is an input of the model:
    a promise settles one way or the other, and the synchronous
    [saveSession] either returns or throws. *)

Inductive Settled := Fulfilled (v : string) | Rejected (e : string).

(** How one call of [saveSession] ends.  [AppendDropped] is a write that
    failed inside the store and was absorbed there; the engine cannot tell
    it from [AppendStored].  [AppendThrew] is a failure that reaches the
    caller as an exception. *)
Inductive SaveResult := AppendStored | AppendDropped | AppendThrew (e : string).

Inductive Effect :=
| PlayStart
| PlayPause
| PlayResume
| PlayComplete
| SaveSession (s : TimerSession) (r : SaveResult)
| GetMotivationalTip (c : GoalCategory) (d : Z) (i : string)
| GetCelebrationMessage (c : GoalCategory)
| ConsoleError (e : string)
| UnhandledRejection (e : string).

(** ** The component's state *)

Record World := mkWorld {
  (* useState *)
  stage : AppStage;
  session : TimerSession;
  timeLeft : Z;
  smoothProgress : Q;
  motivationLoading : bool;
  celebrationMsg : string;
  (* useRef *)
  endTimeRef : option Q;
  timerIdRef : option positive;
  totalDurationRef : Z;
  (* window: active intervals, each with the [session] its callback captured *)
  timers : gmap positive TimerSession;
  nextTimerId : positive;
  (* promises awaited by [handleStart] and [handleComplete] *)
  pendingTips : nat;
  pendingCelebrations : nat;
  (* calls made to the collaborators, oldest first *)
  trace : list Effect
}.

Definition PRESET_TIMES : list Z := [5; 15; 25; 45; 60]%Z.

Definition initialSession : TimerSession :=
  {| durationMinutes := 25; category := FOCUS; intention := "";
     aiMotivation := None; completedAt := None |}.

(** The state of a freshly mounted component. *)
Definition initialWorld : World :=
  {| stage := SETUP; session := initialSession; timeLeft := 25 * 60;
     smoothProgress := 100; motivationLoading := false; celebrationMsg := "";
     endTimeRef := None; timerIdRef := None; totalDurationRef := 0;
     timers := ∅; nextTimerId := 1%positive;
     pendingTips := 0; pendingCelebrations := 0; trace := [] |}.

(** *** State setters *)

Definition setStage (x : AppStage) (w : World) : World :=
  mkWorld x (session w) (timeLeft w) (smoothProgress w) (motivationLoading w)
    (celebrationMsg w) (endTimeRef w) (timerIdRef w) (totalDurationRef w)
    (timers w) (nextTimerId w) (pendingTips w) (pendingCelebrations w) (trace w).

Definition setSession (f : TimerSession -> TimerSession) (w : World) : World :=
  mkWorld (stage w) (f (session w)) (timeLeft w) (smoothProgress w)
    (motivationLoading w) (celebrationMsg w) (endTimeRef w) (timerIdRef w)
    (totalDurationRef w) (timers w) (nextTimerId w) (pendingTips w)
    (pendingCelebrations w) (trace w).

Definition setTimeLeft (x : Z) (w : World) : World :=
  mkWorld (stage w) (session w) x (smoothProgress w) (motivationLoading w)
    (celebrationMsg w) (endTimeRef w) (timerIdRef w) (totalDurationRef w)
    (timers w) (nextTimerId w) (pendingTips w) (pendingCelebrations w) (trace w).

Definition setSmoothProgress (x : Q) (w : World) : World :=
  mkWorld (stage w) (session w) (timeLeft w) x (motivationLoading w)
    (celebrationMsg w) (endTimeRef w) (timerIdRef w) (totalDurationRef w)
    (timers w) (nextTimerId w) (pendingTips w) (pendingCelebrations w) (trace w).

Definition setMotivationLoading (x : bool) (w : World) : World :=
  mkWorld (stage w) (session w) (timeLeft w) (smoothProgress w) x
    (celebrationMsg w) (endTimeRef w) (timerIdRef w) (totalDurationRef w)
    (timers w) (nextTimerId w) (pendingTips w) (pendingCelebrations w) (trace w).

Definition setCelebrationMsg (x : string) (w : World) : World :=
  mkWorld (stage w) (session w) (timeLeft w) (smoothProgress w)
    (motivationLoading w) x (endTimeRef w) (timerIdRef w) (totalDurationRef w)
    (timers w) (nextTimerId w) (pendingTips w) (pendingCelebrations w) (trace w).

Definition set_endTimeRef (x : option Q) (w : World) : World :=
  mkWorld (stage w) (session w) (timeLeft w) (smoothProgress w)
    (motivationLoading w) (celebrationMsg w) x (timerIdRef w)
    (totalDurationRef w) (timers w) (nextTimerId w) (pendingTips w)
    (pendingCelebrations w) (trace w).

Definition set_timerIdRef (x : option positive) (w : World) : World :=
  mkWorld (stage w) (session w) (timeLeft w) (smoothProgress w)
    (motivationLoading w) (celebrationMsg w) (endTimeRef w) x
    (totalDurationRef w) (timers w) (nextTimerId w) (pendingTips w)
    (pendingCelebrations w) (trace w).

Definition set_totalDurationRef (x : Z) (w : World) : World :=
  mkWorld (stage w) (session w) (timeLeft w) (smoothProgress w)
    (motivationLoading w) (celebrationMsg w) (endTimeRef w) (timerIdRef w) x
    (timers w) (nextTimerId w) (pendingTips w) (pendingCelebrations w) (trace w).

Definition set_timers (x : gmap positive TimerSession) (n : positive) (w : World) : World :=
  mkWorld (stage w) (session w) (timeLeft w) (smoothProgress w)
    (motivationLoading w) (celebrationMsg w) (endTimeRef w) (timerIdRef w)
    (totalDurationRef w) x n (pendingTips w) (pendingCelebrations w) (trace w).

Definition set_pending (tips cels : nat) (w : World) : World :=
  mkWorld (stage w) (session w) (timeLeft w) (smoothProgress w)
    (motivationLoading w) (celebrationMsg w) (endTimeRef w) (timerIdRef w)
    (totalDurationRef w) (timers w) (nextTimerId w) tips cels (trace w).

(** A call to a collaborator. *)
Definition emit (e : Effect) (w : World) : World :=
  mkWorld (stage w) (session w) (timeLeft w) (smoothProgress w)
    (motivationLoading w) (celebrationMsg w) (endTimeRef w) (timerIdRef w)
    (totalDurationRef w) (timers w) (nextTimerId w) (pendingTips w)
    (pendingCelebrations w) (trace w ++ [e]).

(** *** window.setInterval / clearInterval

    [setInterval] returns a fresh id, which is greater than zero and hence
    truthy: [if (timerIdRef.current)] is the test "is not [null]".  The
    callback's closure is the [session] of the calling render. *)

Definition setInterval (closure : TimerSession) (w : World) : positive * World :=
  (nextTimerId w,
   set_timers (<[nextTimerId w := closure]> (timers w)) (Pos.succ (nextTimerId w)) w).

Definition clearInterval (id : positive) (w : World) : World :=
  set_timers (delete id (timers w)) (nextTimerId w) w.

(** ** Handlers of [App] *)

(** [handleComplete], up to its [await].  [closure] is the [session] of the
    render in which the calling interval was installed; [r] is how
    [saveSession] ends.  The function is [async] and its caller drops the
    promise, so an exception thrown by [saveSession] ends the call there
    and surfaces as an unhandled rejection. *)
Definition handleComplete (closure : TimerSession) (r : SaveResult) (w : World) : World :=
  let w := emit PlayComplete w in
  let w := match timerIdRef w with
           | Some id => clearInterval id w
           | None => w
           end in
  let w := emit (SaveSession closure r) w in
  match r with
  | AppendThrew e => emit (UnhandledRejection e) w
  | AppendStored | AppendDropped =>
      let w := setStage COMPLETED w in
      let w := setTimeLeft 0 w in
      let w := setSmoothProgress 0 w in
      let w := emit (GetCelebrationMessage (category closure)) w in
      set_pending (pendingTips w) (S (pendingCelebrations w)) w
  end.

(** The rest of [handleComplete], run when the celebration promise
    settles.  There is no [try] around the [await]. *)
Definition handleComplete_settled (s : Settled) (w : World) : World :=
  let w := set_pending (pendingTips w) (Nat.pred (pendingCelebrations w)) w in
  match s with
  | Fulfilled msg => setCelebrationMsg msg w
  | Rejected e => emit (UnhandledRejection e) w
  end.

(** The callback given to [setInterval] by [handleStart] and by
    [handleResume] (the two copies are the same code).  An [endTimeRef]
    that is [null] or [0] is falsy and makes the callback return. *)
Definition tick (closure : TimerSession) (now : Q) (r : SaveResult) (w : World) : World :=
  match endTimeRef w with
  | None => w
  | Some e =>
      if Qeq_bool e 0 then w
      else
        let diff := e - now in
        if Qle_bool diff 0 then handleComplete closure r w
        else
          let percentage := Qmax 0 (diff / inject_Z (totalDurationRef w) * 100) in
          let w := setSmoothProgress percentage w in
          setTimeLeft (Qceiling (diff / 1000)) w
  end.

(** [handleStart], up to its [await]. *)
Definition handleStart (now : Q) (w : World) : World :=
  let closure := session w in
  let w := emit PlayStart w in
  let w := setStage RUNNING w in
  let durationMs := (durationMinutes closure * 60 * 1000)%Z in
  let w := set_totalDurationRef durationMs w in
  let w := setTimeLeft (durationMinutes closure * 60)%Z w in
  let w := setSmoothProgress 100 w in
  let w := set_endTimeRef (Some (now + inject_Z durationMs)) w in
  let '(id, w) := setInterval closure w in
  let w := set_timerIdRef (Some id) w in
  if String.eqb (intention closure) "" then w
  else
    let w := setMotivationLoading true w in
    let w := emit (GetMotivationalTip (category closure) (durationMinutes closure)
                     (intention closure)) w in
    set_pending (S (pendingTips w)) (pendingCelebrations w) w.

(** The rest of [handleStart]: [try { ... } catch (e) { console.error(e) }
    finally { setMotivationLoading(false) }]. *)
Definition handleStart_settled (s : Settled) (w : World) : World :=
  let w := set_pending (Nat.pred (pendingTips w)) (pendingCelebrations w) w in
  let w := match s with
           | Fulfilled tip => setSession (with_aiMotivation (Some tip)) w
           | Rejected e => emit (ConsoleError e) w
           end in
  setMotivationLoading false w.

Definition handlePause (w : World) : World :=
  let w := emit PlayPause w in
  let w := match timerIdRef w with
           | Some id => set_timerIdRef None (clearInterval id w)
           | None => w
           end in
  setStage PAUSED w.

Definition handleResume (now : Q) (w : World) : World :=
  let closure := session w in
  let w := emit PlayResume w in
  let remainingMs := smoothProgress w / 100 * inject_Z (totalDurationRef w) in
  let w := set_endTimeRef (Some (now + remainingMs)) w in
  let w := setStage RUNNING w in
  let '(id, w) := setInterval closure w in
  set_timerIdRef (Some id) w.

Definition handleStop (w : World) : World :=
  let w := match timerIdRef w with
           | Some id => clearInterval id w
           | None => w
           end in
  let w := setStage SETUP w in
  let w := setSession (with_aiMotivation None) w in
  setSmoothProgress 100 w.

(** ** Events

    What can happen to a mounted component: a click on a button of the
    timer views, an interval firing, a promise settling. *)

Inductive Event :=
| ClickStart (now : Q)                     (* "Start Session" *)
| ClickPause                               (* "Pause" *)
| ClickResume (now : Q)                    (* "Resume" *)
| ClickAbandon                             (* "Abandon" *)
| ClickNewSession                          (* "Start New Session" *)
| PickCategory (c : GoalCategory)
| PickDuration (time : Z)
| TypeIntention (text : string)
| IntervalFires (id : positive) (now : Q) (r : SaveResult)
| TipSettles (s : Settled)
| CelebrationSettles (s : Settled).

Definition step (ev : Event) (w : World) : World :=
  match ev with
  | ClickStart now => handleStart now w
  | ClickPause => handlePause w
  | ClickResume now => handleResume now w
  | ClickAbandon => handleStop w
  | ClickNewSession => setStage SETUP w
  | PickCategory c => setSession (with_category c) w
  | PickDuration time => setSession (with_durationMinutes time) w
  | TypeIntention text => setSession (with_intention text) w
  | IntervalFires id now r =>
      match timers w !! id with
      | Some closure => tick closure now r w
      | None => w
      end
  | TipSettles s => handleStart_settled s w
  | CelebrationSettles s => handleComplete_settled s w
  end.

(** Which events the rendered view and the browser allow.  [renderSetup]
    is shown in [SETUP], [renderTimer] in [RUNNING] and [PAUSED] (with
    "Pause" while [RUNNING], "Resume" otherwise), [renderCompleted] in
    [COMPLETED]; the duration buttons are the [PRESET_TIMES]; the
    intention input has [maxLength = 60]. *)
Definition enabled (ev : Event) (w : World) : Prop :=
  match ev with
  | ClickStart _ => stage w = SETUP
  | ClickPause => stage w = RUNNING
  | ClickResume _ => stage w = PAUSED
  | ClickAbandon => stage w = RUNNING \/ stage w = PAUSED
  | ClickNewSession => stage w = COMPLETED
  | PickCategory _ => stage w = SETUP
  | PickDuration time => stage w = SETUP /\ In time PRESET_TIMES
  | TypeIntention text => stage w = SETUP /\ (String.length text <= 60)%nat
  | IntervalFires id _ _ => is_Some (timers w !! id)
  | TipSettles _ => (0 < pendingTips w)%nat
  | CelebrationSettles _ => (0 < pendingCelebrations w)%nat
  end.

(** Worlds that the mounted component can be in. *)
Inductive reachable : World -> Prop :=
| reachable_init : reachable initialWorld
| reachable_step ev w : reachable w -> enabled ev w -> reachable (step ev w).

(** Runs a list of events, oldest first. *)
Fixpoint run (evs : list Event) (w : World) : World :=
  match evs with
  | [] => w
  | ev :: evs' => run evs' (step ev w)
  end.

(** [allowed evs w]: each event is enabled when its turn comes. *)
Fixpoint allowed (evs : list Event) (w : World) : Prop :=
  match evs with
  | [] => True
  | ev :: evs' => enabled ev w /\ allowed evs' (step ev w)
  end.

(** The gating is decidable, so a run can be checked by evaluation. *)
#[global] Instance AppStage_eq_dec : EqDecision AppStage.
Proof. solve_decision. Defined.

#[global] Instance In_Z_dec (x : Z) (l : list Z) : Decision (In x l).
Proof. apply (In_dec Z.eq_dec). Defined.

#[global] Instance enabled_dec ev w : Decision (enabled ev w).
Proof. destruct ev; cbn; apply _. Defined.

#[global] Instance allowed_dec evs : forall w, Decision (allowed evs w).
Proof. induction evs as [|ev evs IH]; intros w; cbn; apply _. Defined.

(** ** Observations and invariants *)

(** Number of times [handleComplete] was entered: it plays its cue first. *)
Definition isPlayComplete (e : Effect) : bool :=
  match e with PlayComplete => true | _ => false end.

Definition completions (w : World) : nat :=
  length (List.filter isPlayComplete (trace w)).

(** The records handed to [saveSession], oldest first. *)
Definition savedRecord (e : Effect) : option TimerSession :=
  match e with SaveSession s _ => Some s | _ => None end.

Definition saveCalls (w : World) : list TimerSession :=
  omap savedRecord (trace w).

(** [saveSession] came back to its caller. *)
Definition returns (r : SaveResult) : Prop :=
  match r with AppendThrew _ => False | _ => True end.

Definition isClickStart (ev : Event) : Prop :=
  match ev with ClickStart _ => True | _ => False end.

(** A [saveSession] call that threw, and worlds in which none did. *)
Definition threw (e : Effect) : Prop :=
  match e with SaveSession _ (AppendThrew _) => True | _ => False end.

Definition neverThrew (w : World) : Prop :=
  Forall (fun e => ~ threw e) (trace w).

(** The two handlers that call [setInterval]. *)
Definition installsInterval (ev : Event) : Prop :=
  match ev with ClickStart _ | ClickResume _ => True | _ => False end.


(** What a sample taken before the end leaves alone. *)
Definition sameCountdown (w w' : World) : Prop :=
  stage w' = stage w /\ session w' = session w /\
  endTimeRef w' = endTimeRef w /\ timerIdRef w' = timerIdRef w /\
  totalDurationRef w' = totalDurationRef w /\ timers w' = timers w /\
  trace w' = trace w.

(** Two sessions that differ at most in the advisory text. *)
Definition sameConfiguration (c s : TimerSession) : Prop :=
  durationMinutes c = durationMinutes s /\ category c = category s /\
  intention c = intention s.

(** The invariant of the mounted component: an interval is active only
    while [RUNNING], it is the one [timerIdRef] names, its captured
    session has the configuration of the current one, a paused machine
    holds no timer id, and the duration is one of the presets. *)
Definition coherent (w : World) : Prop :=
  (stage w <> RUNNING -> timers w = ∅) /\
  (forall id c, timers w !! id = Some c ->
     timerIdRef w = Some id /\ sameConfiguration c (session w)) /\
  (stage w = PAUSED -> timerIdRef w = None) /\
  In (durationMinutes (session w)) PRESET_TIMES.

(** The spec's [clamp(x, lo, hi)], to compare with the [Math.max(0, _)]
    of the interval callback. *)
Definition spec_clamp (x lo hi : Q) : Q := Qmax lo (Qmin x hi).

(** ** The rest of the component

    [formatTime], the navigation handlers [handleViewChange] and
    [handleStartInterview], and what the render section derives from the
    navigation state: the mode handed to [LiveView] and the highlighted
    button of the dock. *)

(** A template literal applied to an integral number prints its decimal
    digits, with a minus sign when negative. *)
Definition numberToString (z : Z) : string :=
  NilEmpty.string_of_int (Z.to_int z).

(** [Math.floor(seconds / 60)] rounds down, [seconds % 60] keeps the sign
    of [seconds].  The integers stand for the doubles of the source up to
    [2 ^ 53], where every whole number is a double, the quotient rounds
    down to the same minutes and the digits printed are all of them. *)
Definition formatTime (seconds : Z) : string :=
  let m := (seconds / 60)%Z in
  let s := Z.rem seconds 60 in
  (numberToString m ++ ":" ++ (if (s <? 10)%Z then "0" else "")
     ++ numberToString s)%string.

Inductive View := LANDING | TIMER | LIVE | INTERVIEW | RESUME.

Inductive LiveMode := INTERVIEW_MODE | COACH_MODE.

Record Nav := mkNav {
  currentView : View;
  interviewInstruction : option string;
  currentCompanyName : string
}.

Definition initialNav : Nav :=
  {| currentView := LANDING; interviewInstruction := None;
     currentCompanyName := "" |}.

(** Truthiness of [interviewInstruction]: [undefined] and the empty
    string are falsy. *)
Definition instructed (n : Nav) : bool :=
  match interviewInstruction n with
  | Some i => negb (String.eqb i "")
  | None => false
  end.

Definition handleStartInterview (instruction companyName : string) (n : Nav) : Nav :=
  {| currentView := LIVE; interviewInstruction := Some instruction;
     currentCompanyName := companyName |}.

Definition isLIVE (v : View) : bool :=
  match v with LIVE => true | _ => false end.

Definition handleViewChange (view : View) (n : Nav) : Nav :=
  {| currentView := view;
     interviewInstruction :=
       if isLIVE view then interviewInstruction n else None;
     currentCompanyName := currentCompanyName n |}.

(** [onEnter] of the landing view. *)
Definition enterApp (n : Nav) : Nav :=
  {| currentView := TIMER; interviewInstruction := interviewInstruction n;
     currentCompanyName := currentCompanyName n |}.

(** The [mode] prop of [LiveView]. *)
Definition liveMode (n : Nav) : LiveMode :=
  if instructed n then INTERVIEW_MODE else COACH_MODE.

(** The buttons of the dock, the view each one asks for, and the
    condition under which each one carries the highlighted class. *)
Inductive DockButton := HomeButton | TimerButton | CoachButton
                      | InterviewButton | ResumeButton.

Definition dockButtons : list DockButton :=
  [HomeButton; TimerButton; CoachButton; InterviewButton; ResumeButton].

Definition dockTarget (b : DockButton) : View :=
  match b with
  | HomeButton => LANDING
  | TimerButton => TIMER
  | CoachButton => LIVE
  | InterviewButton => INTERVIEW
  | ResumeButton => RESUME
  end.

Definition highlighted (b : DockButton) (n : Nav) : bool :=
  match b, currentView n with
  | HomeButton, _ => false
  | TimerButton, TIMER => true
  | CoachButton, LIVE => negb (instructed n)
  | InterviewButton, INTERVIEW => true
  | InterviewButton, LIVE => instructed n
  | ResumeButton, RESUME => true
  | _, _ => false
  end.

(** The dock is rendered on every view but the landing one. *)
Definition dockShown (n : Nav) : bool :=
  match currentView n with LANDING => false | _ => true end.

Inductive NavEvent :=
| EnterApp
| ClickDock (b : DockButton)
| StartInterview (instruction companyName : string).

Definition navStep (ev : NavEvent) (n : Nav) : Nav :=
  match ev with
  | EnterApp => enterApp n
  | ClickDock b => handleViewChange (dockTarget b) n
  | StartInterview i c => handleStartInterview i c n
  end.

(** [LandingView] is shown on [LANDING], the dock elsewhere, and
    [InterviewSetup] on [INTERVIEW]. *)
Definition navEnabled (ev : NavEvent) (n : Nav) : Prop :=
  match ev with
  | EnterApp => currentView n = LANDING
  | ClickDock _ => currentView n <> LANDING
  | StartInterview _ _ => currentView n = INTERVIEW
  end.

Inductive navReachable : Nav -> Prop :=
| navReachable_init : navReachable initialNav
| navReachable_step ev n :
    navReachable n -> navEnabled ev n -> navReachable (navStep ev n).

(** ** Clock readings

    The instants that a run reads from [Date.now()], and runs whose
    readings are positive and never go back. *)
Definition clock (ev : Event) : option Q :=
  match ev with
  | ClickStart now | ClickResume now | IntervalFires _ now _ => Some now
  | _ => None
  end.

Definition clockAfter (t : Q) (ev : Event) : Q :=
  match clock ev with Some now => now | None => t end.

Fixpoint steadyClock (t : Q) (evs : list Event) : Prop :=
  match evs with
  | [] => True
  | ev :: evs' => t <= clockAfter t ev /\ steadyClock (clockAfter t ev) evs'
  end.


(** A record as the setup view can produce it, untouched by the engine. *)
Definition plainRecord (s : TimerSession) : Prop :=
  In (durationMinutes s) PRESET_TIMES /\
  (String.length (intention s) <= 60)%nat /\
  completedAt s = None.

(** The arrows of the stage machine, each with the event that takes it. *)
Inductive transition : AppStage -> Event -> AppStage -> Prop :=
| transition_start now : transition SETUP (ClickStart now) RUNNING
| transition_pause : transition RUNNING ClickPause PAUSED
| transition_resume now : transition PAUSED (ClickResume now) RUNNING
| transition_abandon s : s = RUNNING \/ s = PAUSED -> transition s ClickAbandon SETUP
| transition_complete id now r :
    returns r -> transition RUNNING (IntervalFires id now r) COMPLETED
| transition_reset : transition COMPLETED ClickNewSession SETUP.

(** Reads a string of decimal digits. *)
Definition readNumber (s : string) : option Z :=
  Z.of_int <$> NilEmpty.int_of_string s.

(** The seconds field of [formatTime]. *)
Definition secondsField (s : Z) : string :=
  ((if (s <? 10)%Z then "0" else "") ++ numberToString s)%string.

(** What a run with a positive clock that never goes back keeps of the
    countdown at the instant [t] of its last reading: the percentage is
    in range, the total is a whole number [k] of seconds that bounds the
    displayed seconds, and the end instant is positive and at most the
    total away. *)
Definition withinTotal (t : Q) (w : World) : Prop :=
  0 < t /\
  (0 <= smoothProgress w /\ smoothProgress w <= 100) /\
  (exists k, (0 <= k)%Z /\ totalDurationRef w = (k * 1000)%Z /\
             (stage w <> SETUP -> 0 <= timeLeft w <= k)%Z) /\
  (forall e, endTimeRef w = Some e ->
     0 < e /\ e - t <= inject_Z (totalDurationRef w)).

(** Once set, the end instant stays set, and no interval exists before. *)
Definition endKnown (w : World) : Prop :=
  is_Some (endTimeRef w) \/ timers w = ∅.

(** The two buttons that end a pause. *)
Definition leavesPause (ev : Event) : Prop :=
  match ev with ClickResume _ | ClickAbandon => True | _ => False end.

(** The books of the engine: one [saveSession] call per completion, of
    plain records only, from sessions that are plain themselves. *)
Definition ledger (w : World) : Prop :=
  length (saveCalls w) = completions w /\
  Forall plainRecord (saveCalls w) /\
  (String.length (intention (session w)) <= 60)%nat /\
  completedAt (session w) = None /\
  forall id c, timers w !! id = Some c -> completedAt c = None.

(** ** The countdown arithmetic in IEEE doubles

    The numbers of the source are IEEE-754 doubles.  The three
    expressions of the countdown are repeated here on primitive floats,
    which are the same doubles, to see where rounding shows. *)





(** * Proofs *)

Ltac open_world w k :=
  destruct w as [? ? ? ? ? ? ? [k|] ? ? ? ? ? ?]; cbn in *.

(** ** Finite maps with one key *)

Lemma delete_only_key {A} (m : gmap positive A) (k : positive) :
  (forall id c, m !! id = Some c -> id = k) -> delete k m = ∅.
Proof.
  intros Hk. apply map_empty. intros i.
  destruct (decide (i = k)) as [->|Hne].
  - apply lookup_delete_eq.
  - rewrite lookup_delete_ne by congruence.
    destruct (m !! i) eqn:Hi; [|done]. apply Hk in Hi. congruence.
Qed.

Lemma size_only_key {A} (m : gmap positive A) (k : positive) :
  (forall id c, m !! id = Some c -> id = k) -> (size m <= 1)%nat.
Proof.
  intros Hk. destruct (m !! k) as [c|] eqn:Hc.
  - assert (m = {[k := c]}) as ->.
    { rewrite <- (insert_delete_id m k c) at 1 by done.
      by rewrite (delete_only_key m k Hk). }
    rewrite map_size_singleton. lia.
  - assert (m = ∅) as ->.
    { apply map_empty. intros i. destruct (m !! i) eqn:Hi; [|done].
      pose proof (Hk _ _ Hi). congruence. }
    rewrite map_size_empty. lia.
Qed.

(** ** Rational arithmetic *)

Lemma Qceiling_thousandth (k : Z) : Qceiling (inject_Z (k * 1000) / 1000) = k.
Proof.
  rewrite <- (Qceiling_Z k) at 2. apply Qceiling_comp.
  rewrite inject_Z_mult. field.
Qed.

Lemma Qceiling_pos (x : Q) : 0 < x -> (0 < Qceiling x)%Z.
Proof.
  intros Hx. rewrite Zlt_Qlt.
  apply Qlt_le_trans with x; [exact Hx | apply Qle_ceiling].
Qed.

Lemma Qdiv1000_le (a b : Q) : a <= b -> a / 1000 <= b / 1000.
Proof. intros H. unfold Qdiv. apply Qmult_le_compat_r; [exact H | discriminate]. Qed.

Lemma Qdiv1000_pos (a : Q) : 0 < a -> 0 < a / 1000.
Proof. intros H. apply Qlt_shift_div_l; [reflexivity | lra]. Qed.

Lemma inject_Z_pos (z : Z) : (0 < z)%Z -> 0 < inject_Z z.
Proof. intros H. change 0 with (inject_Z 0). by rewrite <- Zlt_Qlt. Qed.

(** ** What each handler writes *)

Lemma handleStart_fields now w :
  let w' := handleStart now w in
  stage w' = RUNNING /\
  smoothProgress w' = 100 /\
  timeLeft w' = (durationMinutes (session w) * 60)%Z /\
  totalDurationRef w' = (durationMinutes (session w) * 60 * 1000)%Z /\
  endTimeRef w' = Some (now + inject_Z (durationMinutes (session w) * 60 * 1000)) /\
  timerIdRef w' = Some (nextTimerId w) /\
  timers w' = <[nextTimerId w := session w]> (timers w) /\
  session w' = session w.
Proof.
  unfold handleStart.
  destruct (String.eqb (intention (session w)) ""); destruct w; cbn; tauto.
Qed.

Lemma handlePause_fields w :
  stage (handlePause w) = PAUSED /\
  smoothProgress (handlePause w) = smoothProgress w /\
  timeLeft (handlePause w) = timeLeft w /\
  totalDurationRef (handlePause w) = totalDurationRef w /\
  endTimeRef (handlePause w) = endTimeRef w /\
  timerIdRef (handlePause w) = None.
Proof. unfold handlePause. by open_world w k. Qed.

Lemma handleResume_fields now w :
  stage (handleResume now w) = RUNNING /\
  smoothProgress (handleResume now w) = smoothProgress w /\
  timeLeft (handleResume now w) = timeLeft w /\
  totalDurationRef (handleResume now w) = totalDurationRef w /\
  endTimeRef (handleResume now w) =
    Some (now + smoothProgress w / 100 * inject_Z (totalDurationRef w)) /\
  timerIdRef (handleResume now w) = Some (nextTimerId w) /\
  timers (handleResume now w) = <[nextTimerId w := session w]> (timers w).
Proof. by destruct w. Qed.

Lemma timers_handleComplete c r w :
  timers (handleComplete c r w) =
    match timerIdRef w with Some id => delete id (timers w) | None => timers w end.
Proof. destruct r; by open_world w k. Qed.

Lemma timerIdRef_handleComplete c r w :
  timerIdRef (handleComplete c r w) = timerIdRef w.
Proof. destruct r; by open_world w k. Qed.

Lemma session_handleComplete c r w :
  session (handleComplete c r w) = session w.
Proof. destruct r; by open_world w k. Qed.

Lemma endTimeRef_handleComplete c r w :
  endTimeRef (handleComplete c r w) = endTimeRef w.
Proof. destruct r; by open_world w k. Qed.

Lemma stage_handleComplete c r w :
  stage (handleComplete c r w) =
    match r with AppendThrew _ => stage w | _ => COMPLETED end.
Proof. destruct r; by open_world w k. Qed.

Lemma timeLeft_handleComplete c r w :
  timeLeft (handleComplete c r w) =
    match r with AppendThrew _ => timeLeft w | _ => 0%Z end.
Proof. destruct r; by open_world w k. Qed.

Lemma smoothProgress_handleComplete c r w :
  smoothProgress (handleComplete c r w) =
    match r with AppendThrew _ => smoothProgress w | _ => 0 end.
Proof. destruct r; by open_world w k. Qed.

Lemma pendingCelebrations_handleComplete c r w :
  pendingCelebrations (handleComplete c r w) =
    match r with
    | AppendThrew _ => pendingCelebrations w
    | _ => S (pendingCelebrations w)
    end.
Proof. destruct r; by open_world w k. Qed.

Lemma stage_handleStart_settled s w : stage (handleStart_settled s w) = stage w.
Proof. by destruct s, w. Qed.

Lemma stage_handleComplete_settled s w : stage (handleComplete_settled s w) = stage w.
Proof. by destruct s, w. Qed.

(** ** The interval callback, case by case *)

Lemma tick_cases c now r w :
  (tick c now r w = w /\
   (endTimeRef w = None \/ exists e, endTimeRef w = Some e /\ e == 0)) \/
  (exists e, endTimeRef w = Some e /\ ~ e == 0 /\ e - now <= 0 /\
     tick c now r w = handleComplete c r w) \/
  (exists e, endTimeRef w = Some e /\ ~ e == 0 /\ 0 < e - now /\
     tick c now r w =
       setTimeLeft (Qceiling ((e - now) / 1000))
         (setSmoothProgress
            (Qmax 0 ((e - now) / inject_Z (totalDurationRef w) * 100)) w)).
Proof.
  unfold tick. destruct (endTimeRef w) as [e|] eqn:He; [|left; auto].
  destruct (Qeq_bool e 0) eqn:H0.
  - left. split; [done|]. right. exists e. split; [done|]. by apply Qeq_bool_iff.
  - assert (~ e == 0) by (intros Hz; apply Qeq_bool_iff in Hz; congruence).
    right. destruct (Qle_bool (e - now) 0) eqn:Hle.
    + left. exists e. apply Qle_bool_iff in Hle. done.
    + right. exists e. repeat split; try done.
      apply Qnot_le_lt. intros Hl. apply Qle_bool_iff in Hl. congruence.
Qed.

Lemma tick_running c now r w e :
  endTimeRef w = Some e -> ~ e == 0 -> 0 < e - now ->
  tick c now r w =
    setTimeLeft (Qceiling ((e - now) / 1000))
      (setSmoothProgress (Qmax 0 ((e - now) / inject_Z (totalDurationRef w) * 100)) w).
Proof.
  intros He Hz Hd.
  destruct (tick_cases c now r w)
    as [[_ [Hn|(e' & He' & Hz')]]|[(e' & He' & _ & Hle & _)|(e' & He' & _ & _ & ->)]].
  - congruence.
  - rewrite He in He'. injection He' as <-. contradiction.
  - rewrite He in He'. injection He' as <-. lra.
  - rewrite He in He'. injection He' as <-. reflexivity.
Qed.

Lemma tick_due c now r w e :
  endTimeRef w = Some e -> ~ e == 0 -> e - now <= 0 ->
  tick c now r w = handleComplete c r w.
Proof.
  intros He Hz Hd.
  destruct (tick_cases c now r w)
    as [[_ [Hn|(e' & He' & Hz')]]|[(e' & He' & _ & Hle & ->)|(e' & He' & _ & Hlt & _)]].
  - congruence.
  - rewrite He in He'. injection He' as <-. contradiction.
  - reflexivity.
  - rewrite He in He'. injection He' as <-. lra.
Qed.

Lemma tick_idle c now r w :
  match endTimeRef w with Some e => e == 0 | None => True end ->
  tick c now r w = w.
Proof.
  unfold tick. destruct (endTimeRef w) as [e|]; [|done].
  intros Hz. apply Qeq_bool_iff in Hz. by rewrite Hz.
Qed.

Lemma sameCountdown_tick c now r w e :
  endTimeRef w = Some e -> ~ e == 0 -> 0 < e - now ->
  sameCountdown w (tick c now r w).
Proof.
  intros He Hz Hd. rewrite (tick_running c now r w e He Hz Hd).
  by destruct w.
Qed.

Lemma stage_tick c now r w :
  stage (tick c now r w) = stage w \/ stage (tick c now r w) = COMPLETED.
Proof.
  destruct (tick_cases c now r w)
    as [[-> _]|[(e & _ & _ & _ & ->)|(e & _ & _ & _ & ->)]].
  - by left.
  - rewrite stage_handleComplete. destruct r; auto.
  - by left.
Qed.

(** ** The invariant *)

Lemma coherent_cleared (w : World) (k : positive) :
  coherent w -> timerIdRef w = Some k -> delete k (timers w) = ∅.
Proof.
  intros (_ & Hid & _) Hk. apply delete_only_key.
  intros id c Hc. apply Hid in Hc as [Hc _]. congruence.
Qed.

Lemma coherent_no_ref (w : World) :
  coherent w -> timerIdRef w = None -> timers w = ∅.
Proof.
  intros (_ & Hid & _) Hk. apply map_empty. intros i.
  destruct (timers w !! i) eqn:Hi; [|done]. apply Hid in Hi as [Hi _]. congruence.
Qed.

Lemma coherent_handleComplete c r w :
  coherent w -> timers (handleComplete c r w) = ∅.
Proof.
  intros Hw. rewrite timers_handleComplete.
  destruct (timerIdRef w) eqn:Hk; eauto using coherent_cleared, coherent_no_ref.
Qed.

Ltac coherent_parts := refine (conj _ (conj _ (conj _ _))).

Ltac sole_timer Hc :=
  rewrite insert_empty in Hc;
  apply lookup_singleton_Some in Hc as [<- <-]; by repeat split.

Lemma coherent_initial : coherent initialWorld.
Proof. coherent_parts; try done. cbn. tauto. Qed.

Lemma coherent_step ev w : coherent w -> enabled ev w -> coherent (step ev w).
Proof.
  intros Hw Hen. pose proof Hw as (Hrun & Hid & Hpau & Hdur).
  destruct ev; simpl in Hen |- *.
  - (* ClickStart *)
    assert (timers w = ∅) as Hem by (apply Hrun; congruence).
    unfold handleStart.
    destruct (String.eqb (intention (session w)) ""); destruct w; cbn in *;
      subst; (coherent_parts; cbn; try done);
      intros id c Hc; sole_timer Hc.
  - (* ClickPause *)
    unfold handlePause. open_world w k.
    + pose proof (coherent_cleared _ k Hw eq_refl) as Hd. cbn in Hd.
      coherent_parts; cbn; rewrite ?Hd; done.
    + pose proof (coherent_no_ref _ Hw eq_refl) as Hd. cbn in Hd.
      subst. coherent_parts; cbn; done.
  - (* ClickResume *)
    assert (timers w = ∅) as Hem by (apply Hrun; congruence).
    unfold handleResume. destruct w; cbn in *; subst.
    coherent_parts; cbn; try done.
    intros id c Hc; sole_timer Hc.
  - (* ClickAbandon *)
    unfold handleStop. open_world w k.
    + pose proof (coherent_cleared _ k Hw eq_refl) as Hd. cbn in Hd.
      coherent_parts; cbn; rewrite ?Hd; done.
    + pose proof (coherent_no_ref _ Hw eq_refl) as Hd. cbn in Hd.
      subst. coherent_parts; cbn; done.
  - (* ClickNewSession *)
    assert (timers w = ∅) as Hem by (apply Hrun; congruence).
    destruct w; cbn in *; subst. coherent_parts; cbn; done.
  - (* PickCategory *)
    assert (timers w = ∅) as Hem by (apply Hrun; congruence).
    destruct w; cbn in *; subst. coherent_parts; cbn; done.
  - (* PickDuration *)
    destruct Hen as [Hst Hin].
    assert (timers w = ∅) as Hem by (apply Hrun; congruence).
    destruct w; cbn in *; subst. coherent_parts; cbn; done.
  - (* TypeIntention *)
    destruct Hen as [Hst _].
    assert (timers w = ∅) as Hem by (apply Hrun; congruence).
    destruct w; cbn in *; subst. coherent_parts; cbn; done.
  - (* IntervalFires *)
    destruct Hen as [c Hc]. rewrite Hc.
    destruct (tick_cases c now r w)
      as [[-> _]|[(e & _ & _ & _ & ->)|(e & _ & _ & _ & ->)]].
    + done.
    + pose proof (coherent_handleComplete c r w Hw) as Hem.
      coherent_parts; rewrite ?Hem; try done.
      * rewrite stage_handleComplete, timerIdRef_handleComplete.
        destruct r; try done.
      * by rewrite session_handleComplete.
    + destruct w; cbn in *. coherent_parts; cbn; done.
  - (* TipSettles *)
    unfold handleStart_settled.
    destruct s; destruct w; cbn in *; coherent_parts; cbn; done.
  - (* CelebrationSettles *)
    unfold handleComplete_settled.
    destruct s; destruct w; cbn in *; coherent_parts; cbn; done.
Qed.

Lemma reachable_coherent w : reachable w -> coherent w.
Proof. induction 1; eauto using coherent_initial, coherent_step. Qed.

Lemma reachable_run evs : forall w,
  reachable w -> allowed evs w -> reachable (run evs w).
Proof.
  induction evs as [|ev evs IH]; intros w Hw Hal; [done|].
  destruct Hal as [Hen Hal]. cbn. apply IH; [by apply reachable_step | done].
Qed.

(** ** Traces *)

Lemma trace_handleStart now w :
  trace (handleStart now w) =
    trace w ++ PlayStart ::
      (if String.eqb (intention (session w)) "" then []
       else [GetMotivationalTip (category (session w)) (durationMinutes (session w))
               (intention (session w))]).
Proof.
  unfold handleStart.
  destruct (String.eqb (intention (session w)) ""); destruct w; cbn;
    by rewrite <- ?app_assoc.
Qed.

Lemma trace_handlePause w : trace (handlePause w) = trace w ++ [PlayPause].
Proof. unfold handlePause. by open_world w k. Qed.

Lemma trace_handleResume now w : trace (handleResume now w) = trace w ++ [PlayResume].
Proof. by destruct w. Qed.

Lemma trace_handleStop w : trace (handleStop w) = trace w.
Proof. unfold handleStop. by open_world w k. Qed.

Lemma trace_handleComplete c r w :
  trace (handleComplete c r w) =
    trace w ++ [PlayComplete; SaveSession c r;
                match r with
                | AppendThrew e => UnhandledRejection e
                | _ => GetCelebrationMessage (category c)
                end].
Proof.
  unfold handleComplete. destruct r; open_world w k; by rewrite <- ?app_assoc.
Qed.

Lemma trace_handleStart_settled s w :
  trace (handleStart_settled s w) =
    trace w ++ match s with Rejected e => [ConsoleError e] | Fulfilled _ => [] end.
Proof. destruct s, w; cbn; by rewrite ?app_nil_r. Qed.

Lemma trace_handleComplete_settled s w :
  trace (handleComplete_settled s w) =
    trace w ++ match s with Rejected e => [UnhandledRejection e] | Fulfilled _ => [] end.
Proof. destruct s, w; cbn; by rewrite ?app_nil_r. Qed.

Lemma completions_app w l :
  length (List.filter isPlayComplete (trace w ++ l)) =
    (completions w + length (List.filter isPlayComplete l))%nat.
Proof. unfold completions. by rewrite List.filter_app, length_app. Qed.

Lemma completions_handleComplete c r w :
  completions (handleComplete c r w) = S (completions w).
Proof.
  unfold completions at 1. rewrite trace_handleComplete, completions_app.
  destruct r; cbn; lia.
Qed.

Lemma saveCalls_handleComplete c r w :
  saveCalls (handleComplete c r w) = saveCalls w ++ [c].
Proof.
  unfold saveCalls. rewrite trace_handleComplete, omap_app. by destruct r.
Qed.

(** ** Between two sessions *)

(** In [SETUP] and [COMPLETED] nothing completes and nothing is saved
    until the next "Start Session". *)
Lemma idle_step ev w :
  coherent w -> stage w = SETUP \/ stage w = COMPLETED ->
  enabled ev w -> ~ isClickStart ev ->
  (stage (step ev w) = SETUP \/ stage (step ev w) = COMPLETED) /\
  completions (step ev w) = completions w /\
  saveCalls (step ev w) = saveCalls w.
Proof.
  intros Hw Hst Hen Hns.
  assert (timers w = ∅) as Hem.
  { destruct Hw as [Hrun _]. apply Hrun. destruct Hst; congruence. }
  destruct ev; cbn [step enabled isClickStart] in Hen, Hns |- *.
  - tauto.
  - destruct Hst; congruence.
  - destruct Hst; congruence.
  - destruct Hst, Hen; congruence.
  - split; [by left | done].
  - done.
  - done.
  - done.
  - rewrite Hem, lookup_empty in Hen. by destruct Hen.
  - rewrite stage_handleStart_settled. split; [done|].
    unfold completions, saveCalls. rewrite trace_handleStart_settled.
    rewrite List.filter_app, omap_app. destruct s; cbn; by rewrite ?app_nil_r.
  - rewrite stage_handleComplete_settled. split; [done|].
    unfold completions, saveCalls. rewrite trace_handleComplete_settled.
    rewrite List.filter_app, omap_app. destruct s; cbn; by rewrite ?app_nil_r.
Qed.

Lemma idle_run evs : forall w,
  coherent w -> stage w = SETUP \/ stage w = COMPLETED ->
  allowed evs w -> Forall (fun ev => ~ isClickStart ev) evs ->
  completions (run evs w) = completions w /\ saveCalls (run evs w) = saveCalls w.
Proof.
  induction evs as [|ev evs IH]; intros w Hw Hst Hal Hns; [done|].
  destruct Hal as [Hen Hal]. inversion Hns as [|? ? Hev Hrest]; subst.
  destruct (idle_step ev w Hw Hst Hen Hev) as (Hst' & Hc & Hs).
  destruct (IH (step ev w)) as [Hc' Hs']; auto using coherent_step.
  cbn. by rewrite Hc', Hs'.
Qed.

(** While no interval is active, nothing completes and nothing is saved
    until [handleStart] or [handleResume] installs one. *)
Lemma quiet_step ev w :
  coherent w -> timers w = ∅ -> enabled ev w -> ~ installsInterval ev ->
  timers (step ev w) = ∅ /\
  completions (step ev w) = completions w /\
  saveCalls (step ev w) = saveCalls w.
Proof.
  intros Hw Hem Hen Hns.
  destruct ev; cbn [step enabled installsInterval] in Hen, Hns |- *.
  - tauto.
  - unfold completions, saveCalls. rewrite trace_handlePause.
    rewrite List.filter_app, omap_app, !app_nil_r. split; [|done].
    unfold handlePause. open_world w k; subst; by rewrite ?delete_empty.
  - tauto.
  - unfold completions, saveCalls. rewrite trace_handleStop. split; [|done].
    unfold handleStop. open_world w k; subst; by rewrite ?delete_empty.
  - done.
  - done.
  - done.
  - done.
  - rewrite Hem, lookup_empty in Hen. by destruct Hen.
  - unfold completions, saveCalls. rewrite trace_handleStart_settled.
    rewrite List.filter_app, omap_app.
    split; [by destruct s, w|]. destruct s; cbn; by rewrite ?app_nil_r.
  - unfold completions, saveCalls. rewrite trace_handleComplete_settled.
    rewrite List.filter_app, omap_app.
    split; [by destruct s, w|]. destruct s; cbn; by rewrite ?app_nil_r.
Qed.


(** Once [COMPLETED], the stage stays so until "Start New Session". *)
Lemma completed_step ev w :
  stage w = COMPLETED -> enabled ev w -> ev <> ClickNewSession ->
  stage (step ev w) = COMPLETED.
Proof.
  intros Hst Hen Hne.
  destruct ev; cbn [step enabled] in Hen |- *; try congruence;
    try (destruct Hen; congruence).
  - destruct (timers w !! id) as [c|]; [|done].
    destruct (stage_tick c now r w); congruence.
  - by rewrite stage_handleStart_settled.
  - by rewrite stage_handleComplete_settled.
Qed.

Lemma completed_run evs : forall w,
  stage w = COMPLETED -> allowed evs w ->
  Forall (fun ev => ev <> ClickNewSession) evs ->
  stage (run evs w) = COMPLETED.
Proof.
  induction evs as [|ev evs IH]; intros w Hst Hal Hne; [done|].
  destruct Hal as [Hen Hal]. inversion Hne; subst.
  cbn. apply IH; auto using completed_step.
Qed.

(** ** A running machine has its interval *)

Lemma trace_step ev w : exists l, trace (step ev w) = trace w ++ l.
Proof.
  destruct ev; cbn [step].
  - eexists. apply trace_handleStart.
  - eexists. apply trace_handlePause.
  - eexists. apply trace_handleResume.
  - exists []. by rewrite trace_handleStop, app_nil_r.
  - exists []. by rewrite app_nil_r.
  - exists []. by rewrite app_nil_r.
  - exists []. by rewrite app_nil_r.
  - exists []. by rewrite app_nil_r.
  - destruct (timers w !! id) as [c|]; [|exists []; by rewrite app_nil_r].
    destruct (tick_cases c now r w)
      as [[-> _]|[(e & _ & _ & _ & ->)|(e & _ & _ & _ & ->)]].
    + exists []. by rewrite app_nil_r.
    + eexists. apply trace_handleComplete.
    + exists []. destruct w; cbn. by rewrite app_nil_r.
  - eexists. apply trace_handleStart_settled.
  - eexists. apply trace_handleComplete_settled.
Qed.

Lemma neverThrew_step ev w : neverThrew (step ev w) -> neverThrew w.
Proof.
  unfold neverThrew. destruct (trace_step ev w) as [l ->].
  rewrite Forall_app. tauto.
Qed.

(** As long as no [saveSession] call has thrown, every reachable
    [RUNNING] state has an end instant and an active interval, the one
    that [timerIdRef] names. *)
Lemma running_has_interval w :
  reachable w -> neverThrew w -> stage w = RUNNING ->
  exists id c e, timerIdRef w = Some id /\ timers w !! id = Some c /\
                 endTimeRef w = Some e.
Proof.
  induction 1 as [|ev w Hreach IH Hen]; intros Hnt Hst; [done|].
  pose proof (neverThrew_step ev w Hnt) as Hnt0.
  destruct ev; cbn [step enabled] in Hen, Hst, Hnt |- *.
  - destruct (handleStart_fields now w) as (_ & _ & _ & _ & -> & -> & -> & _).
    eexists _, _, _. split; [done|]. split; [apply lookup_insert_eq | done].
  - by destruct (handlePause_fields w) as (Hp & _); rewrite Hp in Hst.
  - destruct (handleResume_fields now w) as (_ & _ & _ & _ & -> & -> & ->).
    eexists _, _, _. split; [done|]. split; [apply lookup_insert_eq | done].
  - unfold handleStop in Hst. by open_world w k.
  - done.
  - destruct w; cbn in *; congruence.
  - destruct w; cbn in *; destruct Hen; congruence.
  - destruct w; cbn in *; destruct Hen; congruence.
  - destruct Hen as [c Hc]. rewrite Hc in Hst, Hnt |- *.
    destruct (tick_cases c now r w)
      as [[Heq _]|[(e & _ & _ & _ & Heq)|(e & He & Hz & Hd & Heq)]];
      rewrite Heq in Hst, Hnt |- *.
    + by apply IH.
    + rewrite stage_handleComplete in Hst.
      destruct r; try done.
      unfold neverThrew in Hnt. rewrite trace_handleComplete in Hnt.
      apply Forall_app in Hnt as [_ Hnt].
      inversion Hnt as [|? ? _ Hnt']; subst.
      inversion Hnt' as [|? ? Hbad _]; subst. by destruct Hbad.
    + destruct (sameCountdown_tick c now r w e He Hz Hd)
        as (Hs1 & _ & Hs3 & Hs4 & _ & Hs6 & _).
      rewrite <- Heq, Hs3, Hs4, Hs6. apply IH; [done|].
      by rewrite <- Hs1, Heq.
  - rewrite stage_handleStart_settled in Hst.
    destruct (IH Hnt0 Hst) as (id & c & e & H1 & H2 & H3).
    exists id, c, e. by destruct s, w.
  - rewrite stage_handleComplete_settled in Hst.
    destruct (IH Hnt0 Hst) as (id & c & e & H1 & H2 & H3).
    exists id, c, e. by destruct s, w.
Qed.

(** ** Samples before the end *)


(** The first sample after [handleStart] does not exceed the value that
    [handleStart] displayed. *)
Lemma first_sample_below_start (w : World) (now t : Q) (r : SaveResult) :
  (0 <= durationMinutes (session w))%Z -> now <= t ->
  (timeLeft (tick (session w) t r (handleStart now w)) <= timeLeft (handleStart now w))%Z.
Proof.
  intros Hd Hle.
  destruct (handleStart_fields now w) as (_ & _ & Htl & _ & Hend & _).
  remember (handleStart now w) as started eqn:Hstarted. clear Hstarted.
  set (T := inject_Z (durationMinutes (session w) * 60 * 1000)) in *.
  destruct (tick_cases (session w) t r started)
    as [[-> _]|[(e & He & _ & _ & ->)|(e & He & _ & Hlt & ->)]].
  - lia.
  - rewrite timeLeft_handleComplete, Htl. destruct r; lia.
  - rewrite Hend in He. injection He as <-. cbn. rewrite Htl.
    rewrite <- (Qceiling_thousandth (durationMinutes (session w) * 60)).
    apply Qceiling_resp_le, Qdiv1000_le. fold T. lra.
Qed.

(** ** A firing that is due *)


(** * Properties from the specification *)

(** ** Start *)

(** C7. For every duration greater than zero, the state right after
    [handleStart] shows [smoothProgress = 100] and
    [timeLeft = durationMinutes * 60], and so does a sample taken by the
    interval callback at the same instant. *)
Theorem start_then_sample (w : World) (now : Q) (r : SaveResult) :
  (0 < durationMinutes (session w))%Z ->
  let started := handleStart now w in
  let sampled := step (IntervalFires (nextTimerId w) now r) started in
  (smoothProgress started = 100 /\
   timeLeft started = (durationMinutes (session w) * 60)%Z) /\
  (smoothProgress sampled == 100 /\
   timeLeft sampled = (durationMinutes (session w) * 60)%Z).
Proof.
  intros Hd started sampled.
  destruct (handleStart_fields now w) as (_ & Hsp & Htl & Htot & Hend & _ & Htm & _).
  fold started in Hsp, Htl, Htot, Hend, Htm.
  assert (sampled = tick (session w) now r started) as ->.
  { unfold sampled. cbn [step]. by rewrite Htm, lookup_insert_eq. }
  clearbody started.
  split; [done|].
  set (T := inject_Z (durationMinutes (session w) * 60 * 1000)) in *.
  assert (0 < T) as HT by (apply inject_Z_pos; lia).
  destruct (Qeq_dec (now + T) 0) as [Hz|Hz].
  - rewrite tick_idle; [by rewrite Hsp, Htl|]. by rewrite Hend.
  - rewrite (tick_running _ _ _ _ _ Hend Hz) by lra.
    rewrite Htot. fold T. cbn. split.
    + rewrite Q.max_r.
      * field. lra.
      * assert ((now + T - now) / T * 100 == 100) as -> by (field; lra). lra.
    + rewrite <- (Qceiling_thousandth (durationMinutes (session w) * 60)).
      apply Qceiling_comp. unfold T. field_simplify. reflexivity.
Qed.

Lemma start_then_sample_witness :
  let started := handleStart 1000 initialWorld in
  let sampled := step (IntervalFires 1 1000 AppendStored) started in
  (0 < durationMinutes (session initialWorld))%Z /\
  smoothProgress started = 100 /\ timeLeft started = 1500%Z /\
  smoothProgress sampled == 100 /\ timeLeft sampled = 1500%Z.
Proof.
  intros started sampled. split; [reflexivity|].
  destruct (start_then_sample initialWorld 1000 AppendStored)
    as [[H1 H2] [H3 H4]]; [reflexivity|].
  repeat split; assumption.
Defined.

(** ** Monotone countdown *)

(** C8. With a fixed end instant [e] and a first sample taken before it,
    a sample taken at [t2] after a sample taken at [t1 <= t2] never shows
    more seconds than the first, whether the second sample recomputes
    or completes. *)
Theorem remainingSeconds_nonincreasing
    (w : World) (c : TimerSession) (e t1 t2 : Q) (r1 r2 : SaveResult) :
  endTimeRef w = Some e -> 0 < e - t1 -> t1 <= t2 ->
  let sample1 := tick c t1 r1 w in
  let sample2 := tick c t2 r2 sample1 in
  endTimeRef sample1 = Some e /\
  (timeLeft sample2 <= timeLeft sample1)%Z.
Proof.
  intros He Hd Hle sample1 sample2.
  destruct (Qeq_dec e 0) as [Hz|Hz].
  - assert (sample1 = w) as H1 by (apply tick_idle; by rewrite He).
    assert (sample2 = sample1) as H2 by (apply tick_idle; by rewrite H1, He).
    rewrite H2, H1. split; [done | lia].
  - assert (endTimeRef sample1 = Some e) as He1.
    { destruct (sameCountdown_tick c t1 r1 w e He Hz Hd) as (_ & _ & Heq & _).
      unfold sample1. congruence. }
    split; [done|].
    assert (timeLeft sample1 = Qceiling ((e - t1) / 1000)) as Htl1.
    { unfold sample1. by rewrite (tick_running c t1 r1 w e He Hz Hd). }
    assert (0 < timeLeft sample1)%Z as Hpos.
    { rewrite Htl1. by apply Qceiling_pos, Qdiv1000_pos. }
    clearbody sample1.
    destruct (Qlt_le_dec 0 (e - t2)) as [Hrun|Hdue].
    + unfold sample2. rewrite (tick_running c t2 r2 sample1 e He1 Hz Hrun).
      cbn. rewrite Htl1. apply Qceiling_resp_le, Qdiv1000_le. lra.
    + unfold sample2. rewrite (tick_due c t2 r2 sample1 e He1 Hz Hdue).
      rewrite timeLeft_handleComplete. destruct r2; lia.
Qed.

Lemma remainingSeconds_nonincreasing_witness :
  let w := handleStart 1000 initialWorld in
  let sample1 := tick initialSession 2500 AppendStored w in
  let sample2 := tick initialSession 3000 AppendStored sample1 in
  endTimeRef w = Some 1501000 /\ 0 < 1501000 - 2500 /\ 2500 <= 3000 /\
  timeLeft sample1 = 1499%Z /\ timeLeft sample2 = 1498%Z /\
  (timeLeft sample2 <= timeLeft sample1)%Z.
Proof.
  intros w sample1 sample2.
  split; [reflexivity|]. split; [reflexivity|]. split; [discriminate|].
  split; [reflexivity|]. split; [reflexivity|].
  apply (remainingSeconds_nonincreasing w initialSession 1501000 2500 3000
           AppendStored AppendStored); [reflexivity | reflexivity | discriminate].
Defined.

(** ** Validation of the duration *)

(** C3, as stated, fails: a configuration with [durationMinutes = 0] is
    not rejected; [handleStart] moves it to [RUNNING]. *)
Lemma start_accepts_zero_duration :
  let cfg := setSession (with_durationMinutes 0) initialWorld in
  stage cfg = SETUP /\ durationMinutes (session cfg) = 0%Z /\
  stage (handleStart 1000 cfg) = RUNNING.
Proof. repeat split. Qed.

(** C3, amended.  [handleStart] validates nothing of its own and always
    moves to [RUNNING].  Durations that are not positive are excluded
    before it: the setup view only offers the presets, so in every state
    the component can reach the duration is one of 5, 15, 25, 45, 60 and
    hence greater than zero, and a transition to [RUNNING] only happens
    with a duration greater than zero. *)
Theorem start_never_rejects :
  (forall (w : World) (now : Q), stage (handleStart now w) = RUNNING) /\
  (forall (w : World), reachable w ->
     In (durationMinutes (session w)) PRESET_TIMES /\
     (0 < durationMinutes (session w))%Z).
Proof.
  split.
  - intros w now. by destruct (handleStart_fields now w) as [-> _].
  - intros w Hw. apply reachable_coherent in Hw as (_ & _ & _ & Hin).
    split; [done|]. cbn in Hin. lia.
Qed.

Lemma start_never_rejects_witness :
  let w := step (PickDuration 45) initialWorld in
  reachable w /\ durationMinutes (session w) = 45%Z /\
  (0 < durationMinutes (session w))%Z /\ stage (handleStart 1000 w) = RUNNING.
Proof.
  intros w.
  assert (reachable w) as Hreach.
  { apply (reachable_step (PickDuration 45) initialWorld reachable_init).
    split; [reflexivity | cbn; tauto]. }
  destruct start_never_rejects as [Hrun Hpos].
  split; [exact Hreach|]. split; [reflexivity|].
  split; [apply (Hpos w Hreach) | apply Hrun].
Defined.

(** ** One interval at a time *)

(** C4, as stated, fails: called on a running machine, [handleResume]
    installs a second interval beside the first and moves the end
    instant, and [handleStart] does not halt a prior interval either. *)
Lemma resume_while_running_second_interval :
  let w := step (IntervalFires 1 2000 AppendStored) (handleStart 1000 initialWorld) in
  stage w = RUNNING /\ size (timers w) = 1%nat /\
  size (timers (handleResume 2030 w)) = 2%nat /\
  endTimeRef w = Some 1501000 /\
  (exists e', endTimeRef (handleResume 2030 w) = Some e' /\ e' == 1501030) /\
  size (timers (handleStart 2030 w)) = 2%nat.
Proof.
  vm_compute. repeat split. eexists. split; reflexivity.
Qed.

(** C4, amended.  On a paused machine [handlePause] changes nothing but
    replays the pause cue.  "Resume" is only on screen while [PAUSED] and
    "Start Session" only in [SETUP]; under that gating at most one
    interval is active in every reachable state, before and after every
    event: no interval is left when [handleStart] or [handleResume]
    installs a new one. *)
Theorem one_interval_under_gating (w : World) :
  reachable w ->
  (stage w = PAUSED -> handlePause w = emit PlayPause w) /\
  (size (timers w) <= 1)%nat /\
  (forall ev, enabled ev w -> size (timers (step ev w)) <= 1)%nat /\
  (forall now, enabled (ClickStart now) w \/ enabled (ClickResume now) w ->
     timers w = ∅) /\
  (stage w = RUNNING -> forall now, ~ enabled (ClickResume now) w) /\
  (stage w <> SETUP -> forall now, ~ enabled (ClickStart now) w).
Proof.
  intros Hreach.
  assert (forall w', reachable w' -> (size (timers w') <= 1)%nat) as Hone.
  { intros w' Hw'. apply reachable_coherent in Hw' as (_ & Hid & _).
    destruct (timerIdRef w') as [k|] eqn:Hk.
    - apply size_only_key with k. intros id c Hc.
      apply Hid in Hc as [Hc _]. congruence.
    - apply size_only_key with 1%positive. intros id c Hc.
      apply Hid in Hc as [Hc _]. congruence. }
  split; [|split; [|split; [|split; [|split]]]].
  - intros Hst. apply reachable_coherent in Hreach as (_ & _ & Hnone & _).
    specialize (Hnone Hst). unfold handlePause.
    destruct w; cbn in *; by subst.
  - by apply Hone.
  - intros ev Hen. apply Hone. by apply reachable_step.
  - intros now Hen. apply reachable_coherent in Hreach as (Hrun & _).
    apply Hrun. cbn in Hen. destruct Hen; congruence.
  - intros Hst now Hen. cbn in Hen. congruence.
  - intros Hst now Hen. cbn in Hen. congruence.
Qed.

Lemma one_interval_under_gating_witness :
  let w := run [ClickStart 1000; ClickPause] initialWorld in
  reachable w /\ stage w = PAUSED /\
  handlePause w = emit PlayPause w /\ (size (timers w) <= 1)%nat.
Proof.
  intros w.
  assert (reachable w) as Hreach.
  { apply (reachable_run [ClickStart 1000; ClickPause] initialWorld reachable_init).
    apply (bool_decide_unpack _). vm_compute. exact I. }
  destruct (one_interval_under_gating w Hreach) as (Hp & Hs & _).
  split; [exact Hreach|]. split; [reflexivity|].
  split; [apply Hp; reflexivity | exact Hs].
Defined.

(** ** Range of the percentage *)

(** C5.  The percentage is declared as a "0-100 float", and the
    callback keeps it from below only, with [Math.max(0, _)].  When the
    clock is set back by a second after the start of the default session,
    [diff] exceeds [totalDurationRef] and the stored percentage is
    1501/15, above 100 and not [clamp(diff / totalDurationRef * 100, 0, 100)]. *)
Lemma percentage_exceeds_100 :
  let w := handleStart 60000 initialWorld in
  let w' := step (IntervalFires 1 59000 AppendStored) w in
  stage w = RUNNING /\ endTimeRef w = Some 1560000 /\
  totalDurationRef w = 1500000%Z /\ 0 < 1560000 - 59000 /\
  smoothProgress w' == 1501 / 15 /\
  ~ smoothProgress w' <= 100 /\
  ~ smoothProgress w' == spec_clamp ((1560000 - 59000) / 1500000 * 100) 0 100.
Proof.
  vm_compute. repeat split; try discriminate.
  intros H. apply H. reflexivity.
Qed.

(** For every sample with [0 < diff <= totalDurationRef], the percentage
    that the callback stores is [clamp(diff / totalDurationRef * 100, 0, 100)]
    and lies in [(0, 100]]. *)
Lemma percentage_within_bounds
    (w : World) (c : TimerSession) (e now : Q) (r : SaveResult) :
  endTimeRef w = Some e -> ~ e == 0 ->
  0 < e - now -> e - now <= inject_Z (totalDurationRef w) ->
  let w' := tick c now r w in
  smoothProgress w' ==
    spec_clamp ((e - now) / inject_Z (totalDurationRef w) * 100) 0 100 /\
  0 < smoothProgress w' /\ smoothProgress w' <= 100.
Proof.
  intros He Hz Hd HT w'. unfold w'.
  rewrite (tick_running c now r w e He Hz Hd). cbn.
  set (T := inject_Z (totalDurationRef w)) in *.
  assert (0 < T) as HTpos by lra.
  assert (0 < (e - now) / T) as Hq0 by (apply Qlt_shift_div_l; lra).
  assert ((e - now) / T <= 1) as Hq1 by (apply Qle_shift_div_r; lra).
  set (q := (e - now) / T) in *.
  set (p := q * 100).
  assert (0 < p) as Hp0 by (unfold p; lra).
  assert (p <= 100) as Hp1 by (unfold p; lra).
  assert (Qmax 0 p == p) as Hmax by (apply Q.max_r; lra).
  unfold spec_clamp. rewrite (Q.min_l p 100 Hp1), Hmax. lra.
Qed.

Lemma percentage_within_bounds_witness :
  let w := handleStart 60000 initialWorld in
  let w' := tick initialSession 360000 AppendStored w in
  endTimeRef w = Some 1560000 /\ 0 < 1560000 - 360000 /\
  1560000 - 360000 <= inject_Z (totalDurationRef w) /\
  0 < smoothProgress w' /\ smoothProgress w' <= 100.
Proof.
  intros w w'.
  split; [reflexivity|]. split; [reflexivity|]. split; [discriminate|].
  apply (percentage_within_bounds w initialSession 1560000 360000 AppendStored);
    [reflexivity | discriminate | reflexivity | discriminate].
Defined.

(** For every sample before the end, whatever the clock reads, the stored
    percentage is [diff / totalDurationRef * 100] and positive; it is at
    most 100 exactly when [diff] is within the total. *)
Lemma percentage_lower_clamp
    (w : World) (c : TimerSession) (e now : Q) (r : SaveResult) :
  endTimeRef w = Some e -> ~ e == 0 ->
  0 < e - now -> 0 < inject_Z (totalDurationRef w) ->
  let w' := tick c now r w in
  smoothProgress w' == (e - now) / inject_Z (totalDurationRef w) * 100 /\
  0 < smoothProgress w' /\
  (smoothProgress w' <= 100 <-> e - now <= inject_Z (totalDurationRef w)).
Proof.
  intros He Hz Hd HTpos w'. unfold w'.
  rewrite (tick_running c now r w e He Hz Hd). cbn.
  set (T := inject_Z (totalDurationRef w)) in *.
  assert (0 < (e - now) / T) as Hq0 by (apply Qlt_shift_div_l; lra).
  set (q := (e - now) / T) in *.
  assert (Qmax 0 (q * 100) == q * 100) as Hmax by (apply Q.max_r; lra).
  rewrite Hmax. split; [reflexivity|]. split; [lra|]. split.
  - intros Hle. assert (q <= 1) as Hq1 by lra.
    assert (e - now == q * T) as -> by (unfold q; field; lra). nra.
  - intros Hle. assert (q <= 1) as Hq1 by (apply Qle_shift_div_r; lra). lra.
Qed.

(** ** The persisted record *)

(** What a completing firing hands to [saveSession]: one record, the
    session that the interval captured when it was installed.  It has the
    configuration of the current session, but its advisory text is the
    one of the capturing render. *)
Lemma completion_saves_captured_session
    (w : World) (id : positive) (c : TimerSession) (e now : Q) (r : SaveResult) :
  reachable w -> timers w !! id = Some c ->
  endTimeRef w = Some e -> ~ e == 0 -> e - now <= 0 ->
  saveCalls (step (IntervalFires id now r) w) = saveCalls w ++ [c] /\
  sameConfiguration c (session w).
Proof.
  intros Hreach Hc He Hz Hdue. split.
  - cbn [step]. rewrite Hc, (tick_due c now r w e He Hz Hdue).
    apply saveCalls_handleComplete.
  - apply reachable_coherent in Hreach as (_ & Hid & _).
    by apply Hid in Hc as [_ Hc].
Qed.

(** C6, at the spec's own scenario, with the motivational tip resolving
    while the timer runs.  The session is persisted once, with its
    duration, category and intention; but at the moment of completion the
    session carries the tip, and the record handed to [saveSession] does
    not: [handleComplete] is the one of the render in which the interval
    was installed.  Nor does the engine stamp [completedAt]. *)
Theorem completion_persists_stale_session :
  let evs := [TypeIntention "Finish report"; ClickStart 1000;
              TipSettles (Fulfilled "One page at a time."%string);
              IntervalFires 1 1501000 AppendStored] in
  let before := run (firstn 3 evs) initialWorld in
  let w := run evs initialWorld in
  allowed evs initialWorld /\
  stage before = RUNNING /\
  session before =
    {| durationMinutes := 25; category := FOCUS; intention := "Finish report";
       aiMotivation := Some "One page at a time."%string; completedAt := None |} /\
  stage w = COMPLETED /\ session w = session before /\
  saveCalls w =
    [{| durationMinutes := 25; category := FOCUS; intention := "Finish report";
        aiMotivation := None; completedAt := None |}].
Proof.
  intros evs before w. split.
  - apply (bool_decide_unpack _). vm_compute. exact I.
  - vm_compute. repeat split.
Qed.

(** ** Failures of the collaborators *)

(** C9.  A rejected motivational tip is caught and logged with
    [console.error], and only the loading flag changes.  A rejected
    celebration message leaves the stage and the (fallback) message as
    they are as well, but nothing catches it: [handleComplete] awaits it
    outside any [try], so the rejection escapes as an unhandled one and
    no [console.error] is made. *)
Theorem celebration_rejection_uncaught (w : World) (e : string) :
  let failedTip := handleStart_settled (Rejected e) w in
  let failedCelebration := handleComplete_settled (Rejected e) w in
  (trace failedTip = trace w ++ [ConsoleError e] /\
   stage failedTip = stage w /\ session failedTip = session w /\
   motivationLoading failedTip = false) /\
  (trace failedCelebration = trace w ++ [UnhandledRejection e] /\
   stage failedCelebration = stage w /\
   celebrationMsg failedCelebration = celebrationMsg w).
Proof. by destruct w. Qed.

(** C9 at a concrete run: the default session completes and the
    celebration message is rejected. *)
Example celebration_rejection_scenario :
  let w := run [ClickStart 1000; IntervalFires 1 1501000 AppendStored;
                CelebrationSettles (Rejected "503"%string)] initialWorld in
  stage w = COMPLETED /\ celebrationMsg w = ""%string /\
  trace w = [PlayStart; PlayComplete; SaveSession initialSession AppendStored;
             GetCelebrationMessage FOCUS; UnhandledRejection "503"%string].
Proof. vm_compute. repeat split. Qed.

(** C10, as stated, fails: [saveSession] is called before the stage is
    set and outside any [try].  When it throws, the interval has already
    been halted, yet the stage is still [RUNNING], the display is not
    zeroed and no celebration message is requested. *)
Lemma throwing_append_blocks_completion :
  let w := handleStart 1000 initialWorld in
  let w' := step (IntervalFires 1 1501000 (AppendThrew "QuotaExceededError"%string)) w in
  stage w = RUNNING /\ endTimeRef w = Some 1501000 /\
  stage w' = RUNNING /\ stage w' <> COMPLETED /\
  timers w' = ∅ /\ pendingCelebrations w' = 0%nat /\
  trace w' = [PlayStart; PlayComplete;
              SaveSession initialSession (AppendThrew "QuotaExceededError"%string);
              UnhandledRejection "QuotaExceededError"%string].
Proof. vm_compute. repeat split. discriminate. Qed.

(** C10, amended.  When the append fails inside the store without
    throwing to the engine, the completing firing still enters
    [COMPLETED] and requests the celebration message, whose text is shown
    once it arrives; and the stage stays [COMPLETED] under every later
    event other than the user's "Start New Session". *)
Theorem absorbed_append_failure_completes
    (w : World) (id : positive) (c : TimerSession) (e now : Q) :
  timers w !! id = Some c -> endTimeRef w = Some e -> ~ e == 0 ->
  e - now <= 0 ->
  let w' := step (IntervalFires id now AppendDropped) w in
  stage w' = COMPLETED /\
  trace w' = trace w ++ [PlayComplete; SaveSession c AppendDropped;
                         GetCelebrationMessage (category c)] /\
  pendingCelebrations w' = S (pendingCelebrations w) /\
  (forall msg, celebrationMsg (step (CelebrationSettles (Fulfilled msg)) w') = msg) /\
  (forall evs, allowed evs w' -> Forall (fun ev => ev <> ClickNewSession) evs ->
     stage (run evs w') = COMPLETED).
Proof.
  intros Hc He Hz Hdue w'.
  assert (w' = handleComplete c AppendDropped w) as Hw'.
  { unfold w'. cbn [step]. rewrite Hc. by apply tick_due with e. }
  clearbody w'. subst w'.
  assert (stage (handleComplete c AppendDropped w) = COMPLETED) as Hst
    by apply stage_handleComplete.
  split; [done|]. split; [apply trace_handleComplete|].
  split; [apply pendingCelebrations_handleComplete|].
  split.
  - intros msg. by destruct (handleComplete c AppendDropped w).
  - intros evs Hal Hne. by apply completed_run.
Qed.

Lemma absorbed_append_failure_completes_witness :
  let w := handleStart 1000 initialWorld in
  let w' := step (IntervalFires 1 1501000 AppendDropped) w in
  timers w !! 1%positive = Some initialSession /\
  endTimeRef w = Some 1501000 /\ 1501000 - 1501000 <= 0 /\
  stage w' = COMPLETED /\ pendingCelebrations w' = 1%nat /\
  stage (run [CelebrationSettles (Fulfilled "Well done."%string)] w') = COMPLETED.
Proof.
  intros w w'.
  destruct (absorbed_append_failure_completes w 1%positive initialSession
              1501000 1501000) as (H1 & _ & H3 & _ & H5);
    [reflexivity | reflexivity | discriminate | discriminate |].
  split; [reflexivity|]. split; [reflexivity|]. split; [discriminate|].
  split; [exact H1|]. split; [exact H3|].
  apply H5.
  - split; [|exact I]. cbn [enabled]. unfold w'. rewrite H3. lia.
  - constructor; [discriminate | constructor].
Defined.

(** * Further properties of the component *)

(** ** Countdown under a steady clock *)

Lemma preset_positive d : In d PRESET_TIMES -> (0 < d)%Z.
Proof. cbn. lia. Qed.

Lemma withinTotal_step t ev w :
  coherent w -> withinTotal t w -> enabled ev w -> t <= clockAfter t ev ->
  withinTotal (clockAfter t ev) (step ev w).
Proof.
  intros Hw (Ht & [Hp0 Hp1] & (k & Hk & HT & Htl) & Hend) Hen Hclk.
  pose proof Hw as (_ & _ & _ & Hdur). apply preset_positive in Hdur.
  destruct ev; cbn [step clockAfter clock enabled] in *.
  - (* ClickStart *)
    destruct (handleStart_fields now w) as (Hs & Hsp & Ht' & HT' & He' & _).
    split; [lra|]. split; [rewrite Hsp; lra|]. split.
    + exists (durationMinutes (session w) * 60)%Z.
      rewrite HT', Ht'. split; [lia|]. split; [lia|]. lia.
    + intros e He. rewrite He' in He. injection He as <-.
      rewrite HT'.
      assert (0 < inject_Z (durationMinutes (session w) * 60 * 1000))
        by (apply inject_Z_pos; lia).
      lra.
  - (* ClickPause *)
    destruct (handlePause_fields w) as (Hs & Hsp & Ht' & HT' & He' & _).
    split; [done|]. rewrite Hsp, HT', Ht', He'. split; [done|]. split; [|done].
    exists k. repeat split; try done; apply Htl; congruence.
  - (* ClickResume *)
    destruct (handleResume_fields now w) as (Hs & Hsp & Ht' & HT' & He' & _).
    split; [lra|]. rewrite Hsp, HT', Ht'. split; [done|]. split.
    + exists k. repeat split; try done; apply Htl; congruence.
    + intros e He. rewrite He' in He. injection He as <-.
      assert (0 <= inject_Z (totalDurationRef w)) as HT0.
      { rewrite HT. change 0 with (inject_Z 0). rewrite <- Zle_Qle. lia. }
      set (T := inject_Z (totalDurationRef w)) in *.
      assert (0 <= smoothProgress w / 100 * T) as Hr0.
      { apply Qmult_le_0_compat; [|done]. apply Qle_shift_div_l; lra. }
      assert (smoothProgress w / 100 * T <= 1 * T) as Hr1.
      { apply Qmult_le_compat_r; [|done]. apply Qle_shift_div_r; lra. }
      lra.
  - (* ClickAbandon *)
    split; [done|]. unfold handleStop. open_world w k'; (split; [lra|]); (split;
      [exists k; repeat split; try done | done ]).
  - (* ClickNewSession *)
    split; [done|]. split; [done|]. split; [|done].
    exists k. repeat split; try done.
  - split; [done|]. split; [done|]. split; [|done]. exists k. by destruct w.
  - split; [done|]. split; [done|]. split; [|done]. exists k. by destruct w.
  - split; [done|]. split; [done|]. split; [|done]. exists k. by destruct w.
  - (* IntervalFires *)
    destruct Hen as [c Hc]. rewrite Hc. split; [lra|].
    destruct (tick_cases c now r w)
      as [[-> [Hn|(e & He & Hz)]]|[(e & He & Hz & Hd & ->)|(e & He & Hz & Hd & ->)]].
    + split; [done|]. split; [by exists k|]. intros e He. congruence.
    + destruct (Hend e He). lra.
    + rewrite smoothProgress_handleComplete, timeLeft_handleComplete,
        stage_handleComplete, endTimeRef_handleComplete.
      assert (totalDurationRef (handleComplete c r w) = totalDurationRef w) as ->
        by (destruct r; by open_world w k').
      pose proof Hw as (Hrun & _).
      assert (stage w = RUNNING) as Hst.
      { destruct (decide (stage w = RUNNING)); [done|].
        rewrite Hrun in Hc by done. by rewrite lookup_empty in Hc. }
      split; [destruct r; lra|]. split.
      * exists k. split; [done|]. split; [done|].
        destruct r; intros _; try lia. apply Htl. congruence.
      * intros e' He'. destruct (Hend e' He'). rewrite He in He'.
        injection He' as <-. split; [done|]. lra.
    + destruct (Hend e He) as [He0 HeT].
      assert (0 < inject_Z (totalDurationRef w)) as HTpos by lra.
      set (T := inject_Z (totalDurationRef w)) in *.
      assert (0 < (e - now) / T) as Hq0 by (apply Qlt_shift_div_l; lra).
      assert ((e - now) / T <= 1) as Hq1 by (apply Qle_shift_div_r; lra).
      set (w' := setTimeLeft _ _).
      assert (smoothProgress w' = Qmax 0 ((e - now) / T * 100)) as Hf1 by done.
      assert (timeLeft w' = Qceiling ((e - now) / 1000)) as Hf2 by done.
      assert (totalDurationRef w' = totalDurationRef w) as Hf3 by done.
      assert (endTimeRef w' = endTimeRef w) as Hf4 by done.
      clearbody w'. rewrite Hf1, Hf2, Hf3, Hf4. fold T. split.
      * set (q := (e - now) / T) in *.
        assert (Qmax 0 (q * 100) == q * 100) as -> by (apply Q.max_r; lra). lra.
      * split.
        -- exists k. split; [done|]. split; [done|]. intros _. split.
           ++ apply Z.lt_le_incl, Qceiling_pos, Qdiv1000_pos. done.
           ++ rewrite <- (Qceiling_thousandth k).
              apply Qceiling_resp_le, Qdiv1000_le. rewrite <- HT. fold T. lra.
        -- intros e' He'. rewrite He in He'. injection He' as <-.
           split; [done|]. lra.
  - split; [done|]. unfold handleStart_settled.
    destruct s, w; cbn in *; (split; [done|]); (split; [by exists k | done]).
  - split; [done|]. unfold handleComplete_settled.
    destruct s, w; cbn in *; (split; [done|]); (split; [by exists k | done]).
Qed.

Lemma withinTotal_initial t : 0 < t -> withinTotal t initialWorld.
Proof.
  intros Ht. split; [done|]. split; [cbn; lra|]. split; [|done].
  exists 0%Z. repeat split; try done.
Qed.

Lemma withinTotal_run evs : forall t w,
  coherent w -> withinTotal t w -> allowed evs w -> steadyClock t evs ->
  exists t', withinTotal t' (run evs w).
Proof.
  induction evs as [|ev evs IH]; intros t w Hw Hin Hal Hclk; [by exists t|].
  destruct Hal as [Hen Hal], Hclk as [Hle Hclk]. cbn [run].
  apply (IH (clockAfter t ev)); auto using coherent_step, withinTotal_step.
Qed.

Lemma coherent_run evs : forall w, coherent w -> allowed evs w -> coherent (run evs w).
Proof.
  induction evs as [|ev evs IH]; intros w Hw Hal; [done|].
  destruct Hal as [Hen Hal]. cbn. auto using coherent_step.
Qed.

(** X5. In a run from the mounted component whose clock readings are
    positive and never go back, the percentage stays within [[0, 100]],
    and outside [SETUP] the displayed seconds stay between 0 and the total
    duration of the session. *)
Theorem steady_clock_bounds (t0 : Q) (evs : list Event) :
  0 < t0 -> allowed evs initialWorld -> steadyClock t0 evs ->
  let w := run evs initialWorld in
  0 <= smoothProgress w /\ smoothProgress w <= 100 /\
  (stage w <> SETUP ->
     (0 <= timeLeft w)%Z /\ (timeLeft w * 1000 <= totalDurationRef w)%Z).
Proof.
  intros Ht Hal Hclk w.
  destruct (withinTotal_run evs t0 initialWorld coherent_initial
              (withinTotal_initial t0 Ht) Hal Hclk)
    as (t' & _ & [Hp0 Hp1] & (k & Hk & HT & Htl) & _).
  fold w in Hp0, Hp1, HT, Htl. split; [done|]. split; [done|].
  intros Hst. specialize (Htl Hst). lia.
Qed.

Lemma steady_clock_bounds_witness :
  let evs := [ClickStart 1000; IntervalFires 1 61000 AppendStored;
              ClickPause; ClickResume 90000] in
  let w := run evs initialWorld in
  0 < 1000 /\ allowed evs initialWorld /\ steadyClock 1000 evs /\
  0 <= smoothProgress w /\ smoothProgress w <= 100.
Proof.
  intros evs w.
  assert (allowed evs initialWorld) as Hal
    by (apply (bool_decide_unpack _); vm_compute; exact I).
  assert (steadyClock 1000 evs) as Hclk
    by (vm_compute; repeat split; discriminate).
  split; [reflexivity|]. split; [exact Hal|]. split; [exact Hclk|].
  destruct (steady_clock_bounds 1000 evs eq_refl Hal Hclk) as (H1 & H2 & _).
  split; assumption.
Defined.

Lemma endKnown_step ev w :
  coherent w -> endKnown w -> enabled ev w -> endKnown (step ev w).
Proof.
  intros Hw Hk Hen.
  assert (~ installsInterval ev -> endKnown (step ev w)) as Hq.
  { intros Hi. destruct Hk as [Hk|Hk].
    - left. destruct ev; cbn [step installsInterval] in *; try done.
      + by destruct (handlePause_fields w) as (_ & _ & _ & _ & -> & _).
      + unfold handleStop. by open_world w k.
      + destruct (timers w !! id) as [c|]; [|done].
        destruct (tick_cases c now r w)
          as [[-> _]|[(e & _ & _ & _ & ->)|(e & He & Hz & Hd & Heq)]]; [done| |].
        * by rewrite endTimeRef_handleComplete.
        * destruct (sameCountdown_tick c now r w e He Hz Hd) as (_ & _ & -> & _).
          done.
      + by destruct s, w.
      + by destruct s, w.
    - right. by destruct (quiet_step ev w Hw Hk Hen Hi) as [-> _]. }
  destruct ev; try (apply Hq; cbn; tauto); cbn [step].
  - destruct (handleStart_fields now w) as (_ & _ & _ & _ & He & _).
    left. by rewrite He.
  - destruct (handleResume_fields now w) as (_ & _ & _ & _ & He & _).
    left. by rewrite He.
Qed.

Lemma endKnown_run evs : forall w,
  coherent w -> endKnown w -> allowed evs w -> endKnown (run evs w).
Proof.
  induction evs as [|ev evs IH]; intros w Hw Hk Hal; [done|].
  destruct Hal as [Hen Hal]. cbn. auto using coherent_step, endKnown_step.
Qed.

(** X6. In such a run the guard [if (!endTimeRef.current) return] of the
    interval callback never fires: whenever an interval can fire, the end
    instant is set and positive, and the firing either completes (end
    instant reached) or recomputes the display. *)
Theorem interval_never_idles
    (t0 : Q) (evs : list Event) (id : positive) (now : Q) (r : SaveResult) :
  0 < t0 -> allowed evs initialWorld -> steadyClock t0 evs ->
  let w := run evs initialWorld in
  enabled (IntervalFires id now r) w ->
  exists c e, timers w !! id = Some c /\ endTimeRef w = Some e /\ 0 < e /\
    (e <= now -> step (IntervalFires id now r) w = handleComplete c r w) /\
    (now < e ->
       step (IntervalFires id now r) w =
         setTimeLeft (Qceiling ((e - now) / 1000))
           (setSmoothProgress
              (Qmax 0 ((e - now) / inject_Z (totalDurationRef w) * 100)) w)).
Proof.
  intros Ht Hal Hclk w [c Hc].
  destruct (withinTotal_run evs t0 initialWorld coherent_initial
              (withinTotal_initial t0 Ht) Hal Hclk)
    as (t' & _ & _ & _ & Hend).
  destruct (endKnown_run evs initialWorld coherent_initial (or_intror eq_refl) Hal)
    as [[e He]|Hem]; fold w in Hend.
  - fold w in He. destruct (Hend e He) as [He0 _].
    assert (~ e == 0) as Hz by lra.
    exists c, e. split; [done|]. split; [done|]. split; [done|].
    cbn [step]. rewrite Hc. split; intros Hcmp.
    + apply tick_due with e; [done | done | lra].
    + apply tick_running; [done | done | lra].
  - fold w in Hem. rewrite Hem in Hc. by rewrite lookup_empty in Hc.
Qed.

Lemma interval_never_idles_witness :
  let evs := [ClickStart 1000] in
  let w := run evs initialWorld in
  0 < 1000 /\ allowed evs initialWorld /\ steadyClock 1000 evs /\
  enabled (IntervalFires 1 2000 AppendStored) w /\
  exists c e, timers w !! 1%positive = Some c /\ endTimeRef w = Some e /\ 0 < e.
Proof.
  intros evs w.
  assert (allowed evs initialWorld) as Hal
    by (apply (bool_decide_unpack _); vm_compute; exact I).
  assert (steadyClock 1000 evs) as Hclk
    by (vm_compute; repeat split; discriminate).
  assert (enabled (IntervalFires 1 2000 AppendStored) w) as Hen
    by (apply (bool_decide_unpack _); vm_compute; exact I).
  split; [reflexivity|]. split; [exact Hal|]. split; [exact Hclk|].
  split; [exact Hen|].
  destruct (interval_never_idles 1000 evs 1%positive 2000 AppendStored
              eq_refl Hal Hclk Hen) as (c & e & H1 & H2 & H3 & _).
  exists c, e. repeat split; assumption.
Defined.

(** X4. Whatever the clock does, in every state the component can reach
    the percentage and the displayed seconds are not negative. *)
Theorem countdown_never_negative (w : World) :
  reachable w -> 0 <= smoothProgress w /\ (0 <= timeLeft w)%Z.
Proof.
  induction 1 as [|ev w Hreach [IHp IHt] Hen]; [split; [cbn; lra | done]|].
  pose proof (reachable_coherent w Hreach) as (_ & _ & _ & Hdur).
  apply preset_positive in Hdur.
  destruct ev; cbn [step].
  - destruct (handleStart_fields now w) as (_ & -> & -> & _). split; [lra | lia].
  - by destruct (handlePause_fields w) as (_ & -> & -> & _).
  - by destruct (handleResume_fields now w) as (_ & -> & -> & _).
  - unfold handleStop. open_world w k; split; (lra || done).
  - done.
  - done.
  - done.
  - done.
  - destruct (timers w !! id) as [c|]; [|done].
    destruct (tick_cases c now r w)
      as [[-> _]|[(e & _ & _ & _ & ->)|(e & He & Hz & Hd & ->)]]; [done| |].
    + rewrite smoothProgress_handleComplete, timeLeft_handleComplete.
      destruct r; split; (lra || lia).
    + split; [apply Q.le_max_l|].
      apply Z.lt_le_incl, Qceiling_pos, Qdiv1000_pos. done.
  - by destruct s, w.
  - by destruct s, w.
Qed.

Lemma countdown_never_negative_witness :
  let w := run [ClickStart 1000; IntervalFires 1 2000 AppendStored] initialWorld in
  reachable w /\ 0 <= smoothProgress w /\ (0 <= timeLeft w)%Z.
Proof.
  intros w.
  assert (reachable w) as Hreach.
  { apply (reachable_run _ initialWorld reachable_init).
    apply (bool_decide_unpack _). vm_compute. exact I. }
  split; [exact Hreach | exact (countdown_never_negative w Hreach)].
Defined.

(** X3. The stage machine that the handlers and the rendered buttons
    implement: an event either leaves the stage alone or takes one of six
    arrows, start, pause, resume, abandon, completion by a firing whose
    [saveSession] returns, and reset.  In particular a paused or unstarted
    session never completes. *)
Theorem stage_transitions (w : World) (ev : Event) :
  reachable w -> enabled ev w ->
  stage (step ev w) = stage w \/ transition (stage w) ev (stage (step ev w)).
Proof.
  intros Hreach Hen. pose proof (reachable_coherent w Hreach) as (Hrun & _).
  destruct ev; cbn [step enabled] in *.
  - right. destruct (handleStart_fields now w) as (-> & _). rewrite Hen. constructor.
  - right. destruct (handlePause_fields w) as (-> & _). rewrite Hen. constructor.
  - right. destruct (handleResume_fields now w) as (-> & _). rewrite Hen. constructor.
  - right. assert (stage (handleStop w) = SETUP) as ->
      by (unfold handleStop; by open_world w k).
    by constructor.
  - right. rewrite Hen. constructor.
  - by left.
  - by left.
  - by left.
  - destruct Hen as [c Hc]. rewrite Hc.
    assert (stage w = RUNNING) as Hst.
    { destruct (decide (stage w = RUNNING)); [done|].
      rewrite Hrun in Hc by done. by rewrite lookup_empty in Hc. }
    destruct (tick_cases c now r w)
      as [[-> _]|[(e & _ & _ & _ & ->)|(e & He & Hz & Hd & ->)]]; [by left| |by left].
    rewrite stage_handleComplete, Hst. destruct r; [right|right|by left];
      by constructor.
  - left. apply stage_handleStart_settled.
  - left. apply stage_handleComplete_settled.
Qed.

Lemma stage_transitions_witness :
  reachable initialWorld /\ enabled (ClickStart 1000) initialWorld /\
  transition SETUP (ClickStart 1000) RUNNING.
Proof.
  split; [exact reachable_init|]. split; [reflexivity|].
  destruct (stage_transitions initialWorld (ClickStart 1000) reachable_init eq_refl)
    as [Hsame|Harrow]; [discriminate Hsame | exact Harrow].
Defined.

(** X2. While the machine is paused no interval is active, and whatever
    happens short of "Resume" and "Abandon", the stage, the displayed
    seconds and percentage, the end instant and the total duration stay as
    the pause left them. *)
Theorem paused_countdown_frozen (w : World) (evs : list Event) :
  reachable w -> stage w = PAUSED -> allowed evs w ->
  Forall (fun ev => ~ leavesPause ev) evs ->
  let w' := run evs w in
  stage w' = PAUSED /\ timers w' = ∅ /\
  timeLeft w' = timeLeft w /\ smoothProgress w' = smoothProgress w /\
  endTimeRef w' = endTimeRef w /\ totalDurationRef w' = totalDurationRef w.
Proof.
  intros Hreach. revert w Hreach.
  induction evs as [|ev evs IH]; intros w Hreach Hst Hal Hno.
  - pose proof (reachable_coherent w Hreach) as (Hrun & _).
    cbn. split; [done|]. split; [apply Hrun; congruence | done].
  - destruct Hal as [Hen Hal]. inversion Hno as [|? ? Hev Hrest]; subst.
    pose proof (reachable_coherent w Hreach) as (Hrun & _).
    assert (timers w = ∅) as Hem by (apply Hrun; congruence).
    assert (stage (step ev w) = PAUSED /\
            timeLeft (step ev w) = timeLeft w /\
            smoothProgress (step ev w) = smoothProgress w /\
            endTimeRef (step ev w) = endTimeRef w /\
            totalDurationRef (step ev w) = totalDurationRef w)
      as (Hs & H1 & H2 & H3 & H4).
    { destruct ev; cbn [step enabled leavesPause] in *;
        try congruence; try tauto; try (destruct Hen; congruence).
      - rewrite Hem, lookup_empty in Hen. by destruct Hen.
      - by destruct s, w.
      - by destruct s, w. }
    cbn [run] in *. rewrite <- H1, <- H2, <- H3, <- H4.
    apply IH; auto using reachable_step.
Qed.

Lemma paused_countdown_frozen_witness :
  let w := run [TypeIntention "Read"; ClickStart 1000;
                IntervalFires 1 2000 AppendStored; ClickPause] initialWorld in
  let w' := run [TipSettles (Fulfilled "Page by page."%string)] w in
  reachable w /\ stage w = PAUSED /\
  stage w' = PAUSED /\ timeLeft w' = 1499%Z /\ smoothProgress w' = smoothProgress w.
Proof.
  intros w w'.
  assert (reachable w) as Hreach.
  { apply (reachable_run _ initialWorld reachable_init).
    apply (bool_decide_unpack _). vm_compute. exact I. }
  split; [exact Hreach|]. split; [reflexivity|].
  destruct (paused_countdown_frozen w
              [TipSettles (Fulfilled "Page by page."%string)] Hreach eq_refl)
    as (H1 & _ & H2 & H3 & _).
  - apply (bool_decide_unpack _). vm_compute. exact I.
  - constructor; [exact (fun x => x) | constructor].
  - split; [exact H1|]. split; [exact H2 | exact H3].
Defined.

(** X1. "Abandon" on a running or paused session returns to [SETUP] with
    no interval left, the percentage back at 100 and the motivational tip
    cleared, keeps duration, category and intention, plays no cue and
    hands nothing to [saveSession]; nothing completes or is saved
    afterwards until the next "Start Session". *)
Theorem abandon_discards_session (w : World) :
  reachable w -> enabled ClickAbandon w ->
  let w' := step ClickAbandon w in
  stage w' = SETUP /\ timers w' = ∅ /\
  smoothProgress w' = 100 /\ aiMotivation (session w') = None /\
  sameConfiguration (session w') (session w) /\
  trace w' = trace w /\
  forall evs, allowed evs w' -> Forall (fun ev => ~ isClickStart ev) evs ->
    completions (run evs w') = completions w /\
    saveCalls (run evs w') = saveCalls w.
Proof.
  intros Hreach Hen w'.
  assert (reachable w') as Hreach' by (by apply reachable_step).
  pose proof (reachable_coherent w' Hreach') as Hco. pose proof Hco as (Hrun & _).
  assert (stage w' = SETUP) as Hst by (unfold w'; cbn; unfold handleStop; by open_world w k).
  assert (trace w' = trace w) as Htr by apply trace_handleStop.
  split; [done|]. split; [apply Hrun; congruence|].
  split; [unfold w'; cbn; unfold handleStop; by open_world w k|].
  split; [unfold w'; cbn; unfold handleStop; by open_world w k|].
  split; [unfold w'; cbn; unfold handleStop; by open_world w k|].
  split; [done|].
  intros evs Hal Hns.
  destruct (idle_run evs w' Hco (or_introl Hst) Hal Hns) as [-> ->].
  unfold completions, saveCalls. by rewrite Htr.
Qed.

Lemma abandon_discards_session_witness :
  let w := run [ClickStart 1000; IntervalFires 1 2000 AppendStored] initialWorld in
  let w' := step ClickAbandon w in
  reachable w /\ enabled ClickAbandon w /\
  stage w' = SETUP /\ timers w' = ∅ /\ saveCalls w' = [].
Proof.
  intros w w'.
  assert (reachable w) as Hreach.
  { apply (reachable_run _ initialWorld reachable_init).
    apply (bool_decide_unpack _). vm_compute. exact I. }
  assert (enabled ClickAbandon w) as Hen by (left; reflexivity).
  split; [exact Hreach|]. split; [exact Hen|].
  destruct (abandon_discards_session w Hreach Hen) as (H1 & H2 & _ & _ & _ & _ & H3).
  split; [exact H1|]. split; [exact H2|].
  exact (eq_trans (proj2 (H3 [] I (List.Forall_nil _))) eq_refl).
Defined.

Lemma celebrationMsg_handleComplete c r w :
  celebrationMsg (handleComplete c r w) = celebrationMsg w.
Proof. destruct r; by open_world w k. Qed.

(** X9. Nothing but a fulfilled celebration promise changes the
    celebration message, and nothing but a fulfilled tip (which sets it)
    or "Abandon" (which clears it) changes the motivational tip: starting,
    completing and "Start New Session" leave the texts of the previous
    session in place. *)
Theorem advisory_text_changes (w : World) (ev : Event) :
  (celebrationMsg (step ev w) = celebrationMsg w \/
   exists msg, ev = CelebrationSettles (Fulfilled msg) /\
               celebrationMsg (step ev w) = msg) /\
  (aiMotivation (session (step ev w)) = aiMotivation (session w) \/
   (exists tip, ev = TipSettles (Fulfilled tip) /\
                aiMotivation (session (step ev w)) = Some tip) \/
   (ev = ClickAbandon /\ aiMotivation (session (step ev w)) = None)).
Proof.
  destruct ev; cbn [step].
  - destruct (handleStart_fields now w) as (_ & _ & _ & _ & _ & _ & _ & ->).
    split; [left|by left]. unfold handleStart.
    by destruct (String.eqb _ _), w.
  - split; left; unfold handlePause; by open_world w k.
  - split; left; by destruct w.
  - split; [left|right; right]; unfold handleStop; by open_world w k.
  - split; by left.
  - split; by left.
  - split; by left.
  - split; by left.
  - destruct (timers w !! id) as [c|]; [|split; by left].
    destruct (tick_cases c now r w)
      as [[-> _]|[(e & _ & _ & _ & ->)|(e & He & Hz & Hd & ->)]].
    + split; by left.
    + rewrite celebrationMsg_handleComplete, session_handleComplete. split; by left.
    + split; by left.
  - destruct s as [tip|e]; (split; [left; by destruct w|]).
    + right; left. exists tip. by destruct w.
    + left. by destruct w.
  - destruct s as [msg|e].
    + split; [right; exists msg; by destruct w | left; by destruct w].
    + split; left; by destruct w.
Qed.

(** X10. The loading indicator is only on while a motivational tip is
    still awaited: in every reachable state with [motivationLoading] set
    some tip promise is pending, so its settling will clear the flag. *)
Theorem loading_has_pending_tip (w : World) :
  reachable w -> motivationLoading w = true -> (0 < pendingTips w)%nat.
Proof.
  induction 1 as [|ev w Hreach IH Hen]; [done|].
  destruct ev; cbn [step].
  - unfold handleStart. destruct (String.eqb _ _); destruct w; cbn in *; [done|lia].
  - unfold handlePause. by open_world w k.
  - by destruct w.
  - unfold handleStop. by open_world w k.
  - done.
  - done.
  - done.
  - done.
  - destruct (timers w !! id) as [c|]; [|done].
    destruct (tick_cases c now r w)
      as [[-> _]|[(e & _ & _ & _ & ->)|(e & He & Hz & Hd & ->)]]; [done| |by destruct w].
    destruct r; by open_world w k.
  - by destruct s, w.
  - intros Hl. cbn in Hen. destruct s, w; cbn in *; by apply IH.
Qed.

Lemma loading_has_pending_tip_witness :
  let w := run [TypeIntention "Read"; ClickStart 1000] initialWorld in
  reachable w /\ motivationLoading w = true /\ (0 < pendingTips w)%nat.
Proof.
  intros w.
  assert (reachable w) as Hreach.
  { apply (reachable_run _ initialWorld reachable_init).
    apply (bool_decide_unpack _). vm_compute. exact I. }
  split; [exact Hreach|]. split; [reflexivity|].
  exact (loading_has_pending_tip w Hreach eq_refl).
Defined.

(** ** The interval of a running session *)

(** X7. As long as no [saveSession] call has thrown, a running session
    has exactly one active interval: the one that [timerIdRef] names.  Its
    callback holds a session with the duration, category and intention of
    the current one, and the end instant is set. *)
Theorem running_session_single_interval (w : World) :
  reachable w -> neverThrew w -> stage w = RUNNING ->
  exists id c e, timerIdRef w = Some id /\ timers w = {[id := c]} /\
                 sameConfiguration c (session w) /\ endTimeRef w = Some e.
Proof.
  intros Hreach Hnt Hst.
  destruct (running_has_interval w Hreach Hnt Hst) as (id & c & e & Hid & Hc & He).
  pose proof (reachable_coherent w Hreach) as Hco.
  exists id, c, e. split; [done|]. split; [|split; [|done]].
  - rewrite <- (insert_delete_id (timers w) id c) by done.
    by rewrite (coherent_cleared w id Hco Hid).
  - destruct Hco as (_ & Hcap & _). by destruct (Hcap id c Hc).
Qed.

Lemma running_session_single_interval_witness :
  let w := run [ClickStart 1000; IntervalFires 1 2000 AppendStored] initialWorld in
  reachable w /\ neverThrew w /\ stage w = RUNNING /\
  exists id c, timers w = {[id := c]}.
Proof.
  intros w.
  assert (reachable w) as Hreach.
  { apply (reachable_run _ initialWorld reachable_init).
    apply (bool_decide_unpack _). vm_compute. exact I. }
  assert (neverThrew w) as Hnt.
  { constructor; [exact (fun x => x) | constructor]. }
  split; [exact Hreach|]. split; [exact Hnt|]. split; [reflexivity|].
  destruct (running_session_single_interval w Hreach Hnt eq_refl)
    as (id & c & e & _ & H & _).
  exists id, c. exact H.
Defined.

(** ** What is persisted *)

(** Only a completing firing adds to the books. *)
Lemma books_step ev w :
  (completions (step ev w) = completions w /\ saveCalls (step ev w) = saveCalls w) \/
  (exists id now r c, ev = IntervalFires id now r /\ timers w !! id = Some c /\
     step ev w = handleComplete c r w).
Proof.
  destruct (trace_step ev w) as [l Hl].
  destruct ev; cbn [step] in *;
    try (left; unfold completions, saveCalls;
         first [ rewrite trace_handleStart | rewrite trace_handlePause
               | rewrite trace_handleResume | rewrite trace_handleStop
               | rewrite trace_handleStart_settled
               | rewrite trace_handleComplete_settled | idtac ];
         rewrite ?List.filter_app, ?omap_app;
         try destruct (String.eqb _ _); try destruct s; cbn;
         by rewrite ?app_nil_r).
  destruct (timers w !! id) as [c|] eqn:Hc; [|by left].
  destruct (tick_cases c now r w)
    as [[-> _]|[(e & _ & _ & _ & Heq)|(e & He & Hz & Hd & ->)]].
  - by left.
  - right. by exists id, now, r, c.
  - left. by destruct w.
Qed.

Lemma ledger_step ev w :
  coherent w -> ledger w -> enabled ev w -> ledger (step ev w).
Proof.
  intros Hw (Hlen & Hall & Hint & Hca & Hcap) Hen.
  assert (length (saveCalls (step ev w)) = completions (step ev w) /\
          Forall plainRecord (saveCalls (step ev w))) as [Hlen' Hall'].
  { destruct (books_step ev w) as [[-> ->]|(id & now & r & c & -> & Hc & ->)]; [done|].
    rewrite saveCalls_handleComplete, completions_handleComplete, length_app.
    split; [cbn; lia|]. apply Forall_app. split; [done|].
    constructor; [|constructor].
    destruct Hw as (_ & Hid & _ & Hdur).
    destruct (Hid id c Hc) as [_ (Hd & _ & Hi)].
    split; [by rewrite Hd|]. split; [by rewrite Hi | by apply (Hcap id)]. }
  split; [done|]. split; [done|].
  pose proof Hw as (Hrun & _).
  destruct ev; cbn [step enabled] in *.
  - assert (timers w = ∅) as Hem by (apply Hrun; congruence).
    destruct (handleStart_fields now w) as (_ & _ & _ & _ & _ & _ & -> & ->).
    split; [done|]. split; [done|]. intros id c. rewrite Hem, insert_empty.
    intros [_ <-]%lookup_singleton_Some. done.
  - unfold handlePause. open_world w k; (split; [done|]); (split; [done|]);
      intros id c Hc; [apply lookup_delete_Some in Hc as [_ Hc]|]; by apply (Hcap id).
  - assert (timers w = ∅) as Hem by (apply Hrun; congruence).
    destruct (handleResume_fields now w) as (_ & _ & _ & _ & _ & _ & ->).
    assert (session (handleResume now w) = session w) as -> by (by destruct w).
    split; [done|]. split; [done|]. intros id c. rewrite Hem, insert_empty.
    intros [_ <-]%lookup_singleton_Some. done.
  - unfold handleStop. open_world w k; (split; [done|]); (split; [done|]);
      intros id c Hc; [apply lookup_delete_Some in Hc as [_ Hc]|]; by apply (Hcap id).
  - by destruct w.
  - by destruct w.
  - by destruct w.
  - destruct Hen as [_ Hlen60]. by destruct w.
  - destruct Hen as [c Hc]. rewrite Hc.
    destruct (tick_cases c now r w)
      as [[-> _]|[(e & _ & _ & _ & ->)|(e & He & Hz & Hd & ->)]]; [done| |by destruct w].
    rewrite session_handleComplete, timers_handleComplete.
    split; [done|]. split; [done|].
    destruct (timerIdRef w) as [k|]; [|done].
    intros id' c' Hc'. apply lookup_delete_Some in Hc' as [_ Hc']. by apply (Hcap id').
  - by destruct s, w.
  - by destruct s, w.
Qed.

(** X8. [saveSession] is called once per entry into [handleComplete] and
    by nothing else, so an abandoned session is never saved; and every
    record handed over has a preset duration, an intention of at most 60
    characters and no [completedAt]: the engine never stamps it. *)
Theorem persisted_records_plain (w : World) :
  reachable w ->
  length (saveCalls w) = completions w /\ Forall plainRecord (saveCalls w).
Proof.
  intros Hreach.
  assert (ledger w) as (H1 & H2 & _).
  { induction Hreach as [|ev w Hreach IH Hen].
    - repeat split; try done. cbn. lia.
    - apply ledger_step; auto using reachable_coherent. }
  done.
Qed.

Lemma persisted_records_plain_witness :
  let w := run [ClickStart 1000; IntervalFires 1 1501000 AppendStored] initialWorld in
  reachable w /\ completions w = 1%nat /\
  length (saveCalls w) = completions w /\ Forall plainRecord (saveCalls w).
Proof.
  intros w.
  assert (reachable w) as Hreach.
  { apply (reachable_run _ initialWorld reachable_init).
    apply (bool_decide_unpack _). vm_compute. exact I. }
  split; [exact Hreach|]. split; [reflexivity|].
  exact (persisted_records_plain w Hreach).
Defined.

(** ** Display of the remaining time *)

Local Open Scope Z_scope.

Lemma readNumber_numberToString z : readNumber (numberToString z) = Some z.
Proof.
  unfold readNumber, numberToString. rewrite NilEmpty.isi. cbn.
  by rewrite DecimalZ.of_to.
Qed.

Lemma string_append_cons (c : Ascii.ascii) (a b : string) :
  (String c a ++ b)%string = String c (a ++ b)%string.
Proof. reflexivity. Qed.

Lemma string_length_append (a b : string) :
  String.length (a ++ b)%string = (String.length a + String.length b)%nat.
Proof.
  induction a as [|c a IH]; [done|].
  rewrite string_append_cons. cbn [String.length]. by rewrite IH.
Qed.

Lemma string_append_inv (a1 a2 b1 b2 : string) :
  (a1 ++ b1 = a2 ++ b2)%string -> String.length b1 = String.length b2 ->
  a1 = a2 /\ b1 = b2.
Proof.
  revert a2. induction a1 as [|c a1 IH]; intros [|c2 a2] Heq Hlen.
  - done.
  - change (b1 = String c2 (a2 ++ b2)%string) in Heq. subst b1.
    cbn [String.length] in Hlen. rewrite string_length_append in Hlen. lia.
  - change (String c (a1 ++ b1)%string = b2) in Heq. subst b2.
    cbn [String.length] in Hlen. rewrite string_length_append in Hlen. lia.
  - rewrite !string_append_cons in Heq. injection Heq as -> Heq.
    destruct (IH a2 Heq Hlen) as [-> ->]. done.
Qed.

Lemma secondsField_spec (s : Z) :
  0 <= s < 60 ->
  String.length (secondsField s) = 2%nat /\ readNumber (secondsField s) = Some s.
Proof.
  intros Hs. rewrite <- (Z2Nat.id s) by lia.
  assert (Z.to_nat s < 60)%nat as Hn by lia.
  generalize dependent (Z.to_nat s). clear s Hs. intros n Hn.
  do 60 (destruct n as [|n]; [by vm_compute|]). lia.
Qed.

Lemma formatTime_eq (seconds : Z) :
  0 <= seconds ->
  formatTime seconds =
    (numberToString (seconds / 60) ++ ":" ++ secondsField (seconds mod 60))%string.
Proof.
  intros Hs. unfold formatTime, secondsField.
  by rewrite Z.rem_mod_nonneg by lia.
Qed.

(** X11. For a whole number of seconds from 0 to below [2 ^ 53],
    [formatTime] prints the whole minutes, a colon and a field of exactly
    two digits below 60, which read back as the input; hence two different
    amounts in that range are never displayed alike. *)
Theorem formatTime_faithful (seconds : Z) :
  0 <= seconds < 2 ^ 53 ->
  (exists field : string,
     formatTime seconds = (numberToString (seconds / 60) ++ ":" ++ field)%string /\
     String.length field = 2%nat /\
     exists s, readNumber field = Some s /\ 0 <= s < 60 /\
               seconds = 60 * (seconds / 60) + s) /\
  (forall other, 0 <= other < 2 ^ 53 ->
                 formatTime other = formatTime seconds -> other = seconds).
Proof.
  intros [Hs _].
  assert (0 <= seconds mod 60 < 60) as Hr by (apply Z.mod_pos_bound; lia).
  destruct (secondsField_spec _ Hr) as [Hlen Hread].
  split.
  - exists (secondsField (seconds mod 60)).
    split; [by apply formatTime_eq|]. split; [done|].
    exists (seconds mod 60). split; [done|]. split; [done|].
    apply Z.div_mod. lia.
  - intros other [Ho _] Heq. rewrite !formatTime_eq in Heq by done.
    assert (0 <= other mod 60 < 60) as Hr' by (apply Z.mod_pos_bound; lia).
    destruct (secondsField_spec _ Hr') as [Hlen' Hread'].
    apply string_append_inv in Heq as [Hm Hf].
    2:{ change (S (String.length (secondsField (other mod 60))) =
                S (String.length (secondsField (seconds mod 60)))).
        by rewrite Hlen, Hlen'. }
    change (String ":"%char (secondsField (other mod 60)) =
            String ":"%char (secondsField (seconds mod 60))) in Hf.
    injection Hf as Hf.
    assert (other / 60 = seconds / 60) as Hdiv.
    { apply (f_equal readNumber) in Hm.
      rewrite !readNumber_numberToString in Hm. by injection Hm. }
    assert (other mod 60 = seconds mod 60) as Hmod.
    { rewrite Hf in Hread'. rewrite Hread in Hread'. by injection Hread'. }
    rewrite (Z.div_mod other 60), (Z.div_mod seconds 60) by lia. lia.
Qed.

Lemma formatTime_faithful_witness :
  0 <= 1499 < 2 ^ 53 /\ formatTime 1499 = "24:59"%string /\
  forall other, 0 <= other < 2 ^ 53 ->
                formatTime other = formatTime 1499 -> other = 1499.
Proof.
  assert (0 <= 1499 < 2 ^ 53) as Hs by (split; [discriminate | reflexivity]).
  split; [exact Hs|]. split; [reflexivity|].
  exact (proj2 (formatTime_faithful 1499 Hs)).
Defined.

Local Open Scope Q_scope.

(** ** Navigation *)

(** X12. The dock is hidden on the landing view only.  Whenever it is
    shown, exactly one of its buttons is highlighted, never the home
    button; it is the button of the current view, except that the
    interview button stands for the live view while an interview runs. *)
Theorem dock_highlights_one (n : Nav) :
  highlighted HomeButton n = false /\
  (dockShown n = false <-> currentView n = LANDING) /\
  (dockShown n = true ->
     exists b, highlighted b n = true /\
       (forall b', highlighted b' n = true -> b' = b) /\
       (dockTarget b = currentView n \/
        b = InterviewButton /\ currentView n = LIVE /\
        liveMode n = INTERVIEW_MODE)).
Proof.
  split; [done|]. split.
  - unfold dockShown. destruct (currentView n); split; congruence.
  - unfold dockShown, highlighted, liveMode.
    destruct (currentView n) eqn:Hv; intros Hs; try done.
    + exists TimerButton. repeat split; auto. intros []; congruence.
    + destruct (instructed n) eqn:Hi.
      * exists InterviewButton. repeat split; auto. intros []; cbn; congruence.
      * exists CoachButton. repeat split; auto. intros []; cbn; congruence.
    + exists InterviewButton. repeat split; auto. intros []; congruence.
    + exists ResumeButton. repeat split; auto. intros []; congruence.
Qed.

Lemma dock_highlights_one_witness :
  let n := handleStartInterview "Ask about teamwork" "Acme" initialNav in
  dockShown n = true /\ highlighted InterviewButton n = true /\
  forall b', highlighted b' n = true -> b' = InterviewButton.
Proof.
  intros n. split; [reflexivity|]. split; [reflexivity|].
  destruct (dock_highlights_one n) as (_ & _ & H).
  destruct (H eq_refl) as (b & Hb & Huniq & _).
  intros b' Hb'. rewrite (Huniq b' Hb').
  symmetry. apply Huniq. reflexivity.
Defined.

Lemma nav_instruction_only_live (n : Nav) :
  navReachable n -> currentView n <> LIVE -> interviewInstruction n = None.
Proof.
  induction 1 as [|ev n Hreach IH Hen]; [done|].
  destruct ev; cbn in *.
  - intros _. apply IH. congruence.
  - destruct b; cbn; done.
  - done.
Qed.

(** X13. An interview instruction only exists on the live view.  A dock
    click shows the view of its button and, unless it is the coach
    button, drops the instruction.  The coach button opens the coach mode
    from every other view, but pressed during an interview it changes
    nothing; every other button but home ends up highlighted. *)
Theorem interview_confined_to_live (n : Nav) (b : DockButton) :
  navReachable n -> currentView n <> LANDING ->
  let n' := navStep (ClickDock b) n in
  (currentView n <> LIVE -> interviewInstruction n = None) /\
  currentView n' = dockTarget b /\
  (b <> CoachButton -> interviewInstruction n' = None) /\
  (b = CoachButton ->
     (currentView n = LIVE -> n' = n) /\
     (currentView n <> LIVE -> liveMode n' = COACH_MODE)) /\
  (b <> HomeButton ->
     highlighted b n' = true \/
     b = CoachButton /\ currentView n = LIVE /\ liveMode n = INTERVIEW_MODE /\
     n' = n).
Proof.
  intros Hreach Hview n'.
  pose proof (nav_instruction_only_live n Hreach) as Hinv.
  split; [done|]. split; [done|]. split; [by destruct b|]. split.
  - intros ->. unfold n'. cbn. split.
    + intros Hl. destruct n; cbn in *; by subst.
    + intros Hl. unfold liveMode, instructed. cbn. by rewrite (Hinv Hl).
  - intros Hb. destruct b; try done; try (by left).
    unfold n'. cbn. unfold highlighted, liveMode. cbn.
    assert (currentView n = LIVE \/ currentView n <> LIVE) as [Hl|Hl]
      by (destruct (currentView n); auto; right; congruence).
    + assert (handleViewChange LIVE n = n) as Hsame by (destruct n; cbn in *; by subst).
      unfold instructed at 1. cbn. fold (instructed n).
      destruct (instructed n); [right | left]; done.
    + left. unfold instructed. cbn. by rewrite (Hinv Hl).
Qed.

Lemma interview_confined_to_live_witness :
  let n := navStep (StartInterview "Ask about teamwork" "Acme")
             (navStep (ClickDock InterviewButton) (navStep EnterApp initialNav)) in
  navReachable n /\ currentView n <> LANDING /\
  navStep (ClickDock CoachButton) n = n /\
  interviewInstruction (navStep (ClickDock TimerButton) n) = None.
Proof.
  intros n.
  assert (navReachable n) as Hreach.
  { apply navReachable_step; [|reflexivity].
    apply navReachable_step; [|discriminate].
    apply navReachable_step; [exact navReachable_init | reflexivity]. }
  assert (currentView n <> LANDING) as Hv by discriminate.
  split; [exact Hreach|]. split; [exact Hv|]. split.
  - destruct (interview_confined_to_live n CoachButton Hreach Hv)
      as (_ & _ & _ & H & _).
    exact (proj1 (H eq_refl) eq_refl).
  - destruct (interview_confined_to_live n TimerButton Hreach Hv)
      as (_ & _ & H & _).
    apply H. discriminate.
Defined.

(** X14. [handleStartInterview] opens the live view with the company
    name and the instruction it was given.  A non-empty instruction gives
    the interview mode and highlights the interview button; an empty one
    is falsy, so the live view runs in coach mode with the coach button
    highlighted. *)
Theorem startInterview_mode (instruction company : string) (n : Nav) :
  let n' := handleStartInterview instruction company n in
  currentView n' = LIVE /\ currentCompanyName n' = company /\
  interviewInstruction n' = Some instruction /\
  (instruction <> ""%string ->
     liveMode n' = INTERVIEW_MODE /\ highlighted InterviewButton n' = true) /\
  (instruction = ""%string ->
     liveMode n' = COACH_MODE /\ highlighted CoachButton n' = true).
Proof.
  cbn. unfold liveMode, highlighted, instructed. cbn.
  split; [done|]. split; [done|]. split; [done|]. split.
  - intros Hne. apply String.eqb_neq in Hne. by rewrite Hne.
  - intros ->. done.
Qed.

Lemma startInterview_mode_witness :
  let n := handleStartInterview "" "Acme" initialNav in
  currentView n = LIVE /\ liveMode n = COACH_MODE /\
  highlighted CoachButton n = true.
Proof.
  intros n.
  destruct (startInterview_mode "" "Acme" initialNav) as (H1 & _ & _ & _ & H2).
  split; [exact H1 | exact (H2 eq_refl)].
Defined.

(** * Resume and completion over runs *)

(** ** Resume *)





(** ** Completion *)




